(** * The segment-recording controller of [src/components/AudioRecorder.js]

    The component records microphone audio in consecutive 5-second
    segments, keeps the saved segments in a list and plays one of them at a
    time.  Its logic is a handful of [async] functions that share React
    state, refs, two [setInterval] timers and the native recorder / player.

    The embedding keeps that shape:

    - an [async] function is a tree of type [Async A]: synchronous reads
      and writes of the component memory, [Await] nodes where the source
      has [await] on a native call, [Fork] where it calls an [async]
      function without awaiting it;
    - the functions take the render [R : state] they were created in, since
      a closure sees the [useState] values of its own render, while refs
      ([useRef]) are read from the live memory;
    - a [world] holds the memory, the native side (open recordings, loaded
      sounds), the active intervals and the suspended functions; an [event]
      is a button press, a timer tick or the settling of an awaited call, so
      that a list of events is one interleaving.

    Idealisations: a [setState] is visible to the next event at once (the
    render that follows it is not a step of its own), [await f()] on one of
    the component's own functions resumes as soon as [f] returns, and the
    [console] output is left out.  The effect of lines 20-30 depends on
    [soundObject]: when an event has changed [soundObject], React runs the
    clean-up of the render before right after that event ([step]); the
    unmount is not an [event]. *)

From Stdlib Require Import List String Ascii Arith PeanoNat Bool Lia.
From Stdlib Require Import Decimal DecimalNat DecimalString.
From ExtLib Require Import Structures.Monad.
Import ListNotations.
Import MonadNotation.
Local Open Scope string_scope.
Local Open Scope list_scope.
Local Open Scope monad_scope.

Set Implicit Arguments.

(** ** Data *)

(** A native recording object ([Audio.Recording]).  [huri] is what its
    [getURI()] answers. *)
Record recordingHandle : Type := mkHandle { hid : nat; huri : option string }.

(** A native sound object ([Audio.Sound]). *)
Record sound : Type := mkSound { sid : nat }.

(** The object literal of lines 172-177. *)
Record segment : Type := mkSegment {
  id : string;
  uri : string;
  fileName : string;
  timestamp : nat }.

(** [permission.status] *)
Inductive permissionStatus : Type := granted | denied | undetermined.

(** The five [Alert.alert] calls of the file. *)
Inductive alert : Type :=
| PermissionNeeded            (* line 37: microphone permission is needed *)
| StartError                  (* line 65: recording cannot be started *)
| SegmentStartError           (* line 134: a new segment cannot be started *)
| RecordingDone (n : nat)     (* line 106: a total of n files were saved *)
| PlaybackError.              (* line 249: audio cannot be played *)

(** The [useState] cells, lines 7-13. *)
Record state : Type := mkState {
  recording : option recordingHandle;
  isRecording : bool;
  recordingSegments : list segment;
  recordingTime : nat;
  segmentProgress : nat;
  playingSegmentId : option string;
  soundObject : option sound }.

(** The [useRef] cells, lines 14-18 ([.current] of each). *)
Record refs : Type := mkRefs {
  intervalRef : option nat;
  timerRef : option nat;
  segmentCountRef : nat;
  isRecordingRef : bool;
  recordingRef : option recordingHandle }.

(** What the functions read and write synchronously: state, refs, the
    alerts shown so far (oldest first) and the wall clock of
    [new Date().getTime()]. *)
Record mem : Type := mkMem {
  st : state;
  rf : refs;
  alerts : list alert;
  now : nat }.

(** *** Setters *)

Definition on_st (f : state -> state) (m : mem) : mem :=
  mkMem (f (st m)) (rf m) (alerts m) (now m).

Definition on_rf (f : refs -> refs) (m : mem) : mem :=
  mkMem (st m) (f (rf m)) (alerts m) (now m).

Definition setRecording (v : option recordingHandle) : mem -> mem :=
  on_st (fun s => mkState v (isRecording s) (recordingSegments s)
    (recordingTime s) (segmentProgress s) (playingSegmentId s) (soundObject s)).

Definition setIsRecording (v : bool) : mem -> mem :=
  on_st (fun s => mkState (recording s) v (recordingSegments s)
    (recordingTime s) (segmentProgress s) (playingSegmentId s) (soundObject s)).

(** [setRecordingSegments], [setRecordingTime] and [setSegmentProgress] take
    an updater, as in [setRecordingTime(prev => prev + 1)]. *)
Definition setRecordingSegments (f : list segment -> list segment) : mem -> mem :=
  on_st (fun s => mkState (recording s) (isRecording s) (f (recordingSegments s))
    (recordingTime s) (segmentProgress s) (playingSegmentId s) (soundObject s)).

Definition setRecordingTime (f : nat -> nat) : mem -> mem :=
  on_st (fun s => mkState (recording s) (isRecording s) (recordingSegments s)
    (f (recordingTime s)) (segmentProgress s) (playingSegmentId s) (soundObject s)).

Definition setSegmentProgress (f : nat -> nat) : mem -> mem :=
  on_st (fun s => mkState (recording s) (isRecording s) (recordingSegments s)
    (recordingTime s) (f (segmentProgress s)) (playingSegmentId s) (soundObject s)).

Definition setPlayingSegmentId (v : option string) : mem -> mem :=
  on_st (fun s => mkState (recording s) (isRecording s) (recordingSegments s)
    (recordingTime s) (segmentProgress s) v (soundObject s)).

Definition setSoundObject (v : option sound) : mem -> mem :=
  on_st (fun s => mkState (recording s) (isRecording s) (recordingSegments s)
    (recordingTime s) (segmentProgress s) (playingSegmentId s) v).

Definition set_intervalRef (v : option nat) : mem -> mem :=
  on_rf (fun r => mkRefs v (timerRef r) (segmentCountRef r) (isRecordingRef r)
    (recordingRef r)).

Definition set_timerRef (v : option nat) : mem -> mem :=
  on_rf (fun r => mkRefs (intervalRef r) v (segmentCountRef r) (isRecordingRef r)
    (recordingRef r)).

Definition set_segmentCountRef (v : nat) : mem -> mem :=
  on_rf (fun r => mkRefs (intervalRef r) (timerRef r) v (isRecordingRef r)
    (recordingRef r)).

Definition set_isRecordingRef (v : bool) : mem -> mem :=
  on_rf (fun r => mkRefs (intervalRef r) (timerRef r) (segmentCountRef r) v
    (recordingRef r)).

Definition set_recordingRef (v : option recordingHandle) : mem -> mem :=
  on_rf (fun r => mkRefs (intervalRef r) (timerRef r) (segmentCountRef r)
    (isRecordingRef r) v).

(** [Alert.alert(...)] *)
Definition show (a : alert) (m : mem) : mem :=
  mkMem (st m) (rf m) (alerts m ++ [a]) (now m).

Definition set_now (t : nat) (m : mem) : mem :=
  mkMem (st m) (rf m) (alerts m) t.

(** ** Native calls *)

(** The promises the component awaits. *)
Inductive call : Type :=
| requestPermissionsAsync
| setAudioModeAsync (allowsRecordingIOS : bool)
| createRecording                       (* Audio.Recording.createAsync(HIGH_QUALITY) *)
| stopAndUnloadAsync (h : recordingHandle)
| moveAsync (from to : string)
| timeout (ms : nat)                    (* new Promise(resolve => setTimeout(resolve, ms)) *)
| unloadAsync (s : sound)
| createSound (source : string).        (* Audio.Sound.createAsync({uri}, {shouldPlay: true}) *)

(** What an [await] receives. *)
Inductive settled : Type :=
| rejected
| resolved
| resolvedStatus (s : permissionStatus)
| resolvedRecording (h : recordingHandle)
| resolvedSound (s : sound).

(** ** Asynchronous functions *)

(** The body of an [async] function that returns an [A]. *)
Inductive Async (A : Type) : Type :=
| Ret (a : A)                                   (* return a *)
| Throw                                         (* an exception on its way up *)
| Read (k : mem -> Async A)                     (* read state, refs or clock *)
| Write (f : mem -> mem) (k : Async A)          (* setState, ref.current = ..., alert *)
| Await (c : call) (k : settled -> Async A)     (* await a native call *)
| Fork (p : Async unit) (k : Async A)           (* p() without await *)
| SetInterval (cb : Async unit) (ms : nat) (k : nat -> Async A)
| ClearInterval (t : nat) (k : Async A)
| OnPlaybackStatus (s : sound) (cb : Async unit) (k : Async A).
                                                (* s.setOnPlaybackStatusUpdate, cb
                                                   being what it does on didJustFinish *)

Arguments Throw {A}.
Arguments Read {A} k.
Arguments Write {A} f k.
Arguments Await {A} c k.
Arguments Fork {A} p k.
Arguments SetInterval {A} cb ms k.
Arguments ClearInterval {A} t k.
Arguments OnPlaybackStatus {A} s cb k.

Fixpoint Async_bind {A B : Type} (m : Async A) (f : A -> Async B) : Async B :=
  match m with
  | Ret a => f a
  | Throw => Throw
  | Read k => Read (fun x => Async_bind (k x) f)
  | Write g k => Write g (Async_bind k f)
  | Await c k => Await c (fun v => Async_bind (k v) f)
  | Fork p k => Fork p (Async_bind k f)
  | SetInterval cb ms k => SetInterval cb ms (fun t => Async_bind (k t) f)
  | ClearInterval t k => ClearInterval t (Async_bind k f)
  | OnPlaybackStatus s cb k => OnPlaybackStatus s cb (Async_bind k f)
  end.

(** [try { m } catch (err) { h }].  A function that was called without
    [await] ([Fork]) and a timer callback reject on their own; the
    enclosing [try] does not see it. *)
Fixpoint try_catch {A : Type} (m : Async A) (h : Async A) : Async A :=
  match m with
  | Ret a => Ret a
  | Throw => h
  | Read k => Read (fun x => try_catch (k x) h)
  | Write g k => Write g (try_catch k h)
  | Await c k => Await c (fun v => try_catch (k v) h)
  | Fork p k => Fork p (try_catch k h)
  | SetInterval cb ms k => SetInterval cb ms (fun t => try_catch (k t) h)
  | ClearInterval t k => ClearInterval t (try_catch k h)
  | OnPlaybackStatus s cb k => OnPlaybackStatus s cb (try_catch k h)
  end.

#[export] Instance Monad_Async : Monad Async :=
  {| ret := @Ret; bind := @Async_bind |}.

(** [await c], the value thrown away or used by the caller. *)
Definition await (c : call) : Async settled :=
  Await c (fun v => match v with rejected => Throw | _ => Ret v end).

Definition write (f : mem -> mem) : Async unit := Write f (Ret tt).

Definition fork (p : Async unit) : Async unit := Fork p (Ret tt).

(** ** The component's functions *)

(** JavaScript truthiness of a nullable object. *)
Definition truthy {X : Type} (v : option X) : bool :=
  match v with Some _ => true | None => false end.

(** [a || b] on nullable objects. *)
Definition orElse {X : Type} (a b : option X) : option X :=
  match a with Some _ => a | None => b end.

(** A number inside a template literal. *)
Definition dec (n : nat) : string := NilEmpty.string_of_uint (Nat.to_uint n).

(** [FileSystem.documentDirectory]; the value is the one of the jest
    set-up, nothing below depends on it. *)
Definition documentDirectory : string := "file:///mock/document/directory/".

(** [playingSegmentId === segment.id] *)
Definition same_id (playing : option string) (i : string) : bool :=
  match playing with Some p => String.eqb p i | None => false end.

(** Lines 166 and 173: the file name and the id of a segment saved under
    count [n] at time [t]. *)
Definition fileName_of (n t : nat) : string :=
  "recording_" ++ dec n ++ "_" ++ dec t ++ ".m4a".

Definition id_of (n t : nat) : string :=
  "segment_" ++ dec n ++ "_" ++ dec t.

(** Lines 140-186. *)
Definition saveCurrentSegment (R : state) : Async (option segment) :=
  Read (fun m0 =>
  if negb (truthy (recording R)) && negb (truthy (recordingRef (rf m0)))
  then ret None
  else
    try_catch
      (match orElse (recordingRef (rf m0)) (recording R) with
       | None => Throw
       | Some currentRecording =>
           write (setRecording None) ;;
           write (set_recordingRef None) ;;
           await (stopAndUnloadAsync currentRecording) ;;
           await (setAudioModeAsync false) ;;
           match huri currentRecording with
           | None | Some EmptyString => ret None
           | Some uri =>
               Read (fun m1 =>
               let timestamp := now m1 in
               let fileName := fileName_of (segmentCountRef (rf m1)) timestamp in
               let newUri := (documentDirectory ++ fileName)%string in
               await (moveAsync uri newUri) ;;
               Read (fun m2 =>
               let newSegment :=
                 mkSegment (id_of (segmentCountRef (rf m2)) timestamp)
                           newUri fileName timestamp in
               write (fun m => set_segmentCountRef (segmentCountRef (rf m) + 1) m) ;;
               ret (Some newSegment)))
           end
       end)
      (ret None)).

(** [if (ref.current) clearInterval(ref.current)], lines 77-78. *)
Definition clearIntervalOf (ref : refs -> option nat) : Async unit :=
  Read (fun m =>
  match ref (rf m) with
  | Some t => ClearInterval t (Ret tt)
  | None => ret tt
  end).

(** Lines 72-108. *)
Definition stopRecording (R : state) : Async unit :=
  write (setIsRecording false) ;;
  write (set_isRecordingRef false) ;;
  clearIntervalOf intervalRef ;;
  clearIntervalOf timerRef ;;
  write (set_intervalRef None) ;;
  write (set_timerRef None) ;;
  write (setRecordingTime (fun _ => 0)) ;;
  write (setSegmentProgress (fun _ => 0)) ;;
  finalSegments <-
    (if truthy (recording R) then
       try_catch
         (savedSegment <- saveCurrentSegment R ;;
          let finalSegments :=
            match savedSegment with
            | Some s => recordingSegments R ++ [s]
            | None => recordingSegments R
            end in
          write (setRecordingSegments (fun _ => finalSegments)) ;;
          write (setRecording None) ;;
          ret finalSegments)
         (ret (recordingSegments R))
     else ret (recordingSegments R)) ;;
  await (setAudioModeAsync false) ;;
  write (show (RecordingDone (List.length finalSegments))) ;;
  write (set_segmentCountRef 0).

(** Lines 111-137. *)
Definition startNewSegment (R : state) : Async unit :=
  Read (fun m =>
  if truthy (recording R) || truthy (recordingRef (rf m))
  then ret tt
  else
    try_catch
      (await (setAudioModeAsync true) ;;
       v <- await createRecording ;;
       match v with
       | resolvedRecording newRecording =>
           write (setRecording (Some newRecording)) ;;
           write (set_recordingRef (Some newRecording))
       | _ => Throw
       end)
      (write (show SegmentStartError) ;;
       fork (stopRecording R))).

(** Lines 189-211. *)
Definition handleSegmentSplit (R : state) : Async unit :=
  Read (fun m =>
  if negb (isRecordingRef (rf m))
     || (negb (truthy (recording R)) && negb (truthy (recordingRef (rf m))))
  then ret tt
  else
    savedSegment <- saveCurrentSegment R ;;
    match savedSegment with
    | Some s => write (setRecordingSegments (fun prev => prev ++ [s]))
    | None => ret tt
    end ;;
    write (setSegmentProgress (fun _ => 0)) ;;
    await (timeout 100) ;;
    Read (fun m' =>
    if isRecordingRef (rf m') then startNewSegment R else ret tt)).

(** The callback of the one-second interval, lines 52-55. *)
Definition everySecond : Async unit :=
  write (setRecordingTime (fun prev => prev + 1)) ;;
  write (setSegmentProgress (fun prev => (prev + 1) mod 5)).

(** Lines 33-69. *)
Definition startRecording (R : state) : Async unit :=
  try_catch
    (permission <- await requestPermissionsAsync ;;
     match permission with
     | resolvedStatus granted =>
         await (setAudioModeAsync true) ;;
         write (setIsRecording true) ;;
         write (set_isRecordingRef true) ;;
         startNewSegment R ;;
         SetInterval everySecond 1000
           (fun t => write (set_timerRef (Some t))) ;;
         SetInterval (fork (handleSegmentSplit R)) 5000
           (fun t => write (set_intervalRef (Some t)))
     | resolvedStatus _ => write (show PermissionNeeded)
     | _ => Throw
     end)
    (write (show StartError) ;;
     write (setIsRecording false) ;;
     write (set_isRecordingRef false)).

(** Lines 214-220. *)
Definition handleRecordButtonPress (R : state) : Async unit :=
  if isRecording R then fork (stopRecording R) else fork (startRecording R).

(** The status callback of lines 240-246, when [status.didJustFinish]. *)
Definition onDidJustFinish (snd : sound) : Async unit :=
  write (setPlayingSegmentId None) ;;
  write (setSoundObject None) ;;
  fork (await (unloadAsync snd) ;; ret tt).

(** Lines 222-251. *)
Definition playSegment (R : state) (seg : segment) : Async unit :=
  let load : Async unit :=
    v <- await (createSound (uri seg)) ;;
    match v with
    | resolvedSound snd =>
        write (setSoundObject (Some snd)) ;;
        write (setPlayingSegmentId (Some (id seg))) ;;
        OnPlaybackStatus snd (onDidJustFinish snd) (Ret tt)
    | _ => Throw
    end in
  try_catch
    (match soundObject R with
     | Some s =>
         await (unloadAsync s) ;;
         write (setSoundObject None) ;;
         if same_id (playingSegmentId R) (id seg)
         then write (setPlayingSegmentId None)
         else load
     | None => load
     end)
    (write (show PlaybackError)).

(** Lines 22-29, the function the effect of line 20 returns; [R] is the
    render the effect belongs to.  The two native calls are not awaited. *)
Definition cleanup (R : state) : Async unit :=
  clearIntervalOf intervalRef ;;
  clearIntervalOf timerRef ;;
  match soundObject R with
  | Some s => fork (await (unloadAsync s) ;; ret tt)
  | None => ret tt
  end ;;
  Read (fun m =>
  match recordingRef (rf m) with
  | Some h => fork (await (stopAndUnloadAsync h) ;; ret tt)
  | None => ret tt
  end).

(** The native calls of one run of the clean-up of a render whose
    [soundObject] is [so], in memory [m]; none of them is awaited. *)
Definition cleanup_calls (so : option sound) (m : mem) : list call :=
  match so with Some s => [unloadAsync s] | None => [] end
  ++ match recordingRef (rf m) with
     | Some h => [stopAndUnloadAsync h]
     | None => []
     end.

(** [Object.is] on two values of [soundObject] (the dependency of the
    effect, line 30): null, or the same native sound. *)
Definition same_sound (a b : option sound) : bool :=
  match a, b with
  | None, None => true
  | Some x, Some y => Nat.eqb (sid x) (sid y)
  | _, _ => false
  end.

(** ** The world the functions run in *)

Record world : Type := mkWorld {
  memory : mem;
  calls : list call;                 (* native calls issued so far, oldest first *)
  openRecordings : list nat;         (* recordings created and not yet stopped *)
  loadedSounds : list nat;           (* sounds created and not yet unloaded *)
  nextRecording : nat;
  nextSound : nat;
  nextTimer : nat;
  intervals : list (nat * nat * Async unit);      (* id, period, callback; newest first *)
  listeners : list (nat * Async unit);            (* sound, status callback *)
  pending : list (call * (settled -> Async unit)) (* functions stopped at an await *) }.

Definition on_memory (f : mem -> mem) (w : world) : world :=
  mkWorld (f (memory w)) (calls w) (openRecordings w) (loadedSounds w)
    (nextRecording w) (nextSound w) (nextTimer w) (intervals w) (listeners w)
    (pending w).

Definition issue (c : call) (w : world) : world :=
  mkWorld (memory w) (calls w ++ [c]) (openRecordings w) (loadedSounds w)
    (nextRecording w) (nextSound w) (nextTimer w) (intervals w) (listeners w)
    (pending w).

Definition set_pending (l : list (call * (settled -> Async unit))) (w : world) : world :=
  mkWorld (memory w) (calls w) (openRecordings w) (loadedSounds w)
    (nextRecording w) (nextSound w) (nextTimer w) (intervals w) (listeners w) l.

Definition add_interval (cb : Async unit) (ms : nat) (w : world) : world :=
  mkWorld (memory w) (calls w) (openRecordings w) (loadedSounds w)
    (nextRecording w) (nextSound w) (S (nextTimer w))
    ((nextTimer w, ms, cb) :: intervals w) (listeners w) (pending w).

Definition remove_interval (t : nat) (w : world) : world :=
  mkWorld (memory w) (calls w) (openRecordings w) (loadedSounds w)
    (nextRecording w) (nextSound w) (nextTimer w)
    (filter (fun e => negb (Nat.eqb (fst (fst e)) t)) (intervals w)) (listeners w)
    (pending w).

Definition set_listener (s : sound) (cb : Async unit) (w : world) : world :=
  mkWorld (memory w) (calls w) (openRecordings w) (loadedSounds w)
    (nextRecording w) (nextSound w) (nextTimer w) (intervals w)
    ((sid s, cb) :: filter (fun e => negb (Nat.eqb (fst e) (sid s))) (listeners w))
    (pending w).

(** How far a function got. *)
Inductive outcome (A : Type) : Type :=
| Returned (a : A)
| Thrown
| Awaiting (c : call) (k : settled -> Async A).

Arguments Thrown {A}.
Arguments Awaiting {A} c k.

(** A function that was not awaited and stopped at an [await] waits in
    [pending], the one that stopped last first; one that returned or
    rejected is gone. *)
Definition park (o : outcome unit) (w : world) : world :=
  match o with
  | Awaiting c k => set_pending ((c, k) :: pending w) w
  | _ => w
  end.

(** Run a function up to its first [await]. *)
Fixpoint run (A : Type) (p : Async A) (w : world) {struct p} : world * outcome A :=
  match p with
  | Ret a => (w, Returned a)
  | Throw => (w, Thrown)
  | Read k => run (k (memory w)) w
  | Write f k => run k (on_memory f w)
  | Await c k => (issue c w, Awaiting c k)
  | Fork q k => let (w1, o) := run q w in run k (park o w1)
  | SetInterval cb ms k => run (k (nextTimer w)) (add_interval cb ms w)
  | ClearInterval t k => run k (remove_interval t w)
  | OnPlaybackStatus s cb k => run k (set_listener s cb w)
  end.

(** Call a function from an event handler or a timer. *)
Definition invoke (p : Async unit) (w : world) : world :=
  let (w1, o) := run p w in park o w1.

(** ** The native side and the events *)

(** How the native side settles a call. *)
Inductive reply : Type :=
| Rejects
| Completes
| Grants (s : permissionStatus)
| Yields (u : option string).      (* a new recording whose file is [u] *)

Definition open_recording (u : option string) (w : world) : world * settled :=
  let h := mkHandle (nextRecording w) u in
  (mkWorld (memory w) (calls w) (openRecordings w ++ [hid h]) (loadedSounds w)
     (S (nextRecording w)) (nextSound w) (nextTimer w) (intervals w)
     (listeners w) (pending w),
   resolvedRecording h).

Definition close_recording (h : recordingHandle) (w : world) : world * settled :=
  (mkWorld (memory w) (calls w)
     (filter (fun x => negb (Nat.eqb x (hid h))) (openRecordings w))
     (loadedSounds w) (nextRecording w) (nextSound w) (nextTimer w)
     (intervals w) (listeners w) (pending w),
   resolved).

Definition load_sound (w : world) : world * settled :=
  let s := mkSound (nextSound w) in
  (mkWorld (memory w) (calls w) (openRecordings w) (loadedSounds w ++ [sid s])
     (nextRecording w) (S (nextSound w)) (nextTimer w) (intervals w)
     (listeners w) (pending w),
   resolvedSound s).

Definition unload_sound (s : sound) (w : world) : world * settled :=
  (mkWorld (memory w) (calls w) (openRecordings w)
     (filter (fun x => negb (Nat.eqb x (sid s))) (loadedSounds w))
     (nextRecording w) (nextSound w) (nextTimer w) (intervals w)
     (listeners w) (pending w),
   resolved).

(** The effect of a reply on the native side and the value the [await]
    gets; [None] when the reply is not one this call can have.  A call that
    rejects leaves the native side as it was. *)
Definition deliver (c : call) (r : reply) (w : world) : option (world * settled) :=
  match c, r with
  | timeout _, Completes => Some (w, resolved)
  | timeout _, _ => None
  | _, Rejects => Some (w, rejected)
  | requestPermissionsAsync, Grants s => Some (w, resolvedStatus s)
  | setAudioModeAsync _, Completes => Some (w, resolved)
  | createRecording, Yields u => Some (open_recording u w)
  | stopAndUnloadAsync h, Completes => Some (close_recording h w)
  | moveAsync _ _, Completes => Some (w, resolved)
  | unloadAsync s, Completes => Some (unload_sound s w)
  | createSound _, Completes => Some (load_sound w)
  | _, _ => None
  end.

Fixpoint remove_nth {X : Type} (i : nat) (l : list X) {struct l} : list X :=
  match l, i with
  | [], _ => []
  | _ :: t, 0 => t
  | y :: t, S j => y :: remove_nth j t
  end.

(** The call awaited by the [i]-th function of [pending] settles (index 0
    is the function that stopped last) and the function goes on to its next
    [await], where it waits again at index 0, or to its end. *)
Definition settle (i : nat) (r : reply) (w : world) : world :=
  match nth_error (pending w) i with
  | None => w
  | Some (c, k) =>
      match deliver c r (set_pending (remove_nth i (pending w)) w) with
      | None => w
      | Some (w1, v) => invoke (k v) w1
      end
  end.

Inductive event : Type :=
| PressRecord                     (* the record button *)
| PressSegment (n : nat)          (* the n-th row of the list *)
| Tick (i : nat)                  (* the i-th active interval fires, newest = 0 *)
| Settle (i : nat) (r : reply)    (* the call of the i-th pending function settles *)
| DidJustFinish (s : nat)         (* sound s played to its end *)
| Clock (t : nat).                (* the wall clock now reads t *)

(** What the event runs: a handler, a callback or the rest of a suspended
    function. *)
Definition handle (w : world) (e : event) : world :=
  match e with
  | PressRecord => invoke (handleRecordButtonPress (st (memory w))) w
  | PressSegment n =>
      match nth_error (recordingSegments (st (memory w))) n with
      | Some seg => invoke (playSegment (st (memory w)) seg) w
      | None => w
      end
  | Tick i =>
      match nth_error (intervals w) i with
      | Some (_, _, cb) => invoke cb w
      | None => w
      end
  | Settle i r => settle i r w
  | DidJustFinish s =>
      if existsb (Nat.eqb s) (loadedSounds w) then
        match find (fun e => Nat.eqb (fst e) s) (listeners w) with
        | Some (_, cb) => invoke cb w
        | None => w
        end
      else w
  | Clock t => on_memory (set_now t) w
  end.

(** One event: what it runs, then the render.  When [soundObject] is no
    longer the one of the render before, the effect of lines 20-30 is run
    again, its clean-up first: the clean-up that the render before
    installed, closed over that render's [soundObject]. *)
Definition step (w : world) (e : event) : world :=
  let w1 := handle w e in
  if same_sound (soundObject (st (memory w))) (soundObject (st (memory w1)))
  then w1
  else invoke (cleanup (st (memory w))) w1.

Definition run_events (es : list event) (w : world) : world :=
  fold_left step es w.

(** No event of [es], run from [w], changes [soundObject]: on this run the
    effect is never run again. *)
Fixpoint calm (es : list event) (w : world) {struct es} : Prop :=
  match es with
  | [] => True
  | e :: es' =>
      soundObject (st (memory (handle w e))) = soundObject (st (memory w))
      /\ calm es' (handle w e)
  end.

(** The component as mounted: lines 7-18.  Timer ids start at 1, a timer
    id is never falsy. *)
Definition initial_state : state := mkState None false [] 0 0 None None.
Definition initial_refs : refs := mkRefs None None 0 false None.
Definition mounted : world :=
  mkWorld (mkMem initial_state initial_refs [] 0) [] [] [] 0 0 1 [] [] [].

(** Run one function on its own, its awaits answered by [rs] in turn. *)
Fixpoint drive (A : Type) (rs : list reply) (w : world) (o : outcome A)
  {struct rs} : world * outcome A :=
  match rs, o with
  | r :: rs', Awaiting c k =>
      match deliver c r w with
      | Some (w1, v) => let (w2, o2) := run (k v) w1 in drive rs' w2 o2
      | None => (w, o)
      end
  | _, _ => (w, o)
  end.

Definition drive_from (A : Type) (rs : list reply) (p : Async A) (w : world)
  : world * outcome A :=
  let (w1, o) := run p w in drive rs w1 o.

Definition reply_of (ok : bool) : reply := if ok then Completes else Rejects.

(** ** Invariants of the memory *)

Section Preserves.

(** A property of the memory, to be shown of every reachable world. *)
Variable I : mem -> Prop.

(** Every write of [p], of the functions it calls without [await] and of
    the callbacks it installs keeps [I]. *)
Fixpoint preserves (A : Type) (p : Async A) {struct p} : Prop :=
  match p with
  | Ret _ => True
  | Throw => True
  | Read k => forall m, preserves (k m)
  | Write f k => (forall m, I m -> I (f m)) /\ preserves k
  | Await _ k => forall v, preserves (k v)
  | Fork q k => preserves q /\ preserves k
  | SetInterval cb _ k => preserves cb /\ forall t, preserves (k t)
  | ClearInterval _ k => preserves k
  | OnPlaybackStatus _ cb k => preserves cb /\ preserves k
  end.

(** The part of a world that can still write to the memory. *)
Definition safe (w : world) : Prop :=
  I (memory w)
  /\ Forall (fun e => preserves (snd e)) (intervals w)
  /\ Forall (fun e => preserves (snd e)) (listeners w)
  /\ Forall (fun e => forall v, preserves (snd e v)) (pending w).

Definition safe_outcome (A : Type) (o : outcome A) : Prop :=
  match o with
  | Awaiting _ k => forall v, preserves (k v)
  | _ => True
  end.

End Preserves.

(** [segmentProgress] stays a number of seconds inside a segment. *)
Definition progress_in_range (m : mem) : Prop := segmentProgress (st m) < 5.

(** ** Sessions *)

(** The segment that [saveCurrentSegment] builds under count [n] at time
    [t] (lines 165-177). *)
Definition segment_of (n t : nat) : segment :=
  mkSegment (id_of n t) (documentDirectory ++ fileName_of n t)%string
    (fileName_of n t) t.

(** [uri] is truthy: neither [null] nor the empty string. *)
Definition has_uri (u : option string) : bool :=
  match u with Some (String _ _) => true | _ => false end.

(** The record button is pressed, permission is granted, the audio mode is
    set twice (lines 42 and 120) and the first recording opens on file
    [u]. *)
Definition start_session (u : option string) : list event :=
  [PressRecord; Settle 0 (Grants granted); Settle 0 Completes;
   Settle 0 Completes; Settle 0 (Yields u)].

(** Five seconds of a running session: the one-second interval (the older
    one, at index 1) fires five times, then the five-second interval fires
    at wall-clock time [t] and every call of the rotation succeeds: stop,
    audio mode, move, the settling delay, audio mode, and the next
    recording opens on file [u]. *)
Definition five_seconds (t : nat) (u : option string) : list event :=
  [Tick 1; Tick 1; Tick 1; Tick 1; Tick 1; Clock t; Tick 0;
   Settle 0 Completes; Settle 0 Completes; Settle 0 Completes;
   Settle 0 Completes; Settle 0 Completes; Settle 0 (Yields u)].

Definition rotations (n : nat) (clock : nat -> nat) (file : nat -> option string)
  : list event :=
  flat_map (fun k => five_seconds (clock k) (file (S k))) (seq 0 n).

(** A recording that runs for [D] seconds without a failure. *)
Definition continuous_recording (D : nat) (clock : nat -> nat)
  (file : nat -> option string) : list event :=
  start_session (file 0) ++ rotations (D / 5) clock file
    ++ repeat (Tick 1) (D mod 5).

(** The record button is pressed again and the last segment is saved:
    stop, audio mode, move, audio mode (line 102). *)
Definition stop_session : list event :=
  [PressRecord; Settle 0 Completes; Settle 0 Completes; Settle 0 Completes;
   Settle 0 Completes].

(** A session that has rotated [k] times: started from render [R0] of
    world [w0], whose segments, timer value and suspended functions are
    still there. *)
Record rotating (R0 : state) (segs0 : list segment) (t0 : nat)
  (pd : list (call * (settled -> Async unit)))
  (clock : nat -> nat) (k : nat) (w : world) : Prop := mkRotating {
  rot_handle : exists h, recording (st (memory w)) = Some h
                 /\ recordingRef (rf (memory w)) = Some h
                 /\ has_uri (huri h) = true;
  rot_on : isRecording (st (memory w)) = true
           /\ isRecordingRef (rf (memory w)) = true;
  rot_count : segmentCountRef (rf (memory w)) = k;
  rot_segments : recordingSegments (st (memory w)) =
                 segs0 ++ map (fun j => segment_of j (clock j)) (seq 0 k);
  rot_time : recordingTime (st (memory w)) = t0 + 5 * k;
  rot_timers : exists i2 i1 rest, intervals w =
                 (i2, 5000, fork (handleSegmentSplit R0))
                 :: (i1, 1000, everySecond) :: rest;
  rot_pending : pending w = pd }.

(** ** Particular interleavings *)

(** The record button is pressed twice before the first press has got to
    line 47.  The first call ([pending] index 1, then 0) is taken up to its
    [createAsync], then the second one, then both recordings open. *)
Definition double_tap : list event :=
  [PressRecord; PressRecord;
   Settle 1 (Grants granted); Settle 0 Completes; Settle 0 Completes;
   Settle 1 (Grants granted); Settle 0 Completes; Settle 0 Completes;
   Settle 1 (Yields (Some "a.m4a")); Settle 0 (Yields (Some "b.m4a"))].

(** Start, stop while the first [createAsync] is still out, start again;
    then both recordings open. *)
Definition start_stop_start : list event :=
  [PressRecord; Settle 0 (Grants granted); Settle 0 Completes; Settle 0 Completes;
   PressRecord; Settle 0 Completes;
   PressRecord; Settle 0 (Grants granted); Settle 0 Completes; Settle 0 Completes;
   Settle 1 (Yields (Some "a.m4a")); Settle 0 (Yields (Some "b.m4a"))].

(** The record button is pressed, permission is granted, the audio mode is
    set twice and [createAsync] rejects; then the audio-mode call of the
    [stopRecording] that line 135 started settles. *)
Definition failed_start : list event :=
  [PressRecord; Settle 0 (Grants granted); Settle 0 Completes;
   Settle 0 Completes; Settle 0 Rejects; Settle 0 Completes].

(** One session without a rotation: start, then stop at wall-clock time
    [t]. *)
Definition short_session (t : nat) (u : string) : list event :=
  start_session (Some u) ++ Clock t :: stop_session.

(** Two segments are recorded (one by rotation, one by stop), the first
    row is pressed and plays, then the second row is pressed: the first
    sound unloads and loading the second one rejects.  When the load is
    rejected it is the second function waiting: the clean-up, run because
    [soundObject] became null, has called [unloadAsync] once more and
    waits first. *)
Definition replace_fails : list event :=
  start_session (Some "a.m4a") ++ five_seconds 7 (Some "b.m4a") ++ stop_session
  ++ [PressSegment 0; Settle 0 Completes;
      PressSegment 1; Settle 0 Completes; Settle 1 Rejects].

(** The [n]-th row is pressed while another sound is loaded: the sound
    unloads, then the load of the pressed segment settles as [r] says.  The
    load is not the function that stopped last: [soundObject] became null,
    so the clean-up has run, and its calls wait before it. *)
Definition replace_sound (n : nat) (r : reply) (w : world) : list event :=
  [PressSegment n; Settle 0 Completes;
   Settle (List.length (cleanup_calls (soundObject (st (memory w))) (memory w))) r].

(** Sound [nextSound w], loaded from world [w] on, plays to its end and
    the [unloadAsync] of its status callback completes.  That call is not
    the one that was made last: [soundObject] became null, so the clean-up
    has run, and its calls wait before it. *)
Definition sound_ends (w : world) : list event :=
  [DidJustFinish (nextSound w);
   Settle (List.length (cleanup_calls (Some (mkSound (nextSound w))) (memory w)))
     Completes].

(** A rotation whose save succeeds and whose [createAsync] rejects: the
    five-second interval at index [i] fires; stop, audio mode, move, the
    settling delay and the audio mode of line 120 complete; the open
    rejects. *)
Definition rotation_with_failed_open (i : nat) : list event :=
  [Tick i; Settle 0 Completes; Settle 0 Completes; Settle 0 Completes;
   Settle 0 Completes; Settle 0 Completes; Settle 0 Rejects].

(** Not recording: the state and the refs of a component that has just
    been mounted or has just stopped, whatever its list of segments and
    its playback. *)
Definition idle (m : mem) : Prop :=
  recording (st m) = None /\ isRecording (st m) = false
  /\ recordingTime (st m) = 0 /\ segmentProgress (st m) = 0
  /\ rf m = initial_refs.

(** [stopRecording] called in world [w], its one native call settled. *)
Definition stop_now (w : world) : world :=
  settle 0 Completes (invoke (stopRecording (st (memory w))) w).

(** "Stop when not recording is a no-op", as far as the memory goes. *)
Definition stop_is_noop (w : world) : Prop :=
  memory (stop_now w) = memory w.

(** "The summary of the session [es] run from [w] counts the segments
    saved during that session." *)
Definition summary_counts_session (w : world) (es : list event) : Prop :=
  let w' := run_events es w in
  exists earlier,
    alerts (memory w') =
    earlier ++ [RecordingDone (List.length (recordingSegments (st (memory w')))
                               - List.length (recordingSegments (st (memory w))))].

(** ** Reading a segment id *)

Definition is_digit (c : ascii) : bool :=
  let n := nat_of_ascii c in Nat.leb 48 n && Nat.leb n 57.

Fixpoint leading_digits (s : string) : string :=
  match s with
  | String c r => if is_digit c then String c (leading_digits r) else EmptyString
  | EmptyString => EmptyString
  end.

(** The number between the two underscores of [segment_<count>_<time>]:
    the value [segmentCountRef.current] had when the id was built. *)
Definition sequence_number (i : string) : option nat :=
  match i with
  | String "s" (String "e" (String "g" (String "m" (String "e" (String "n"
      (String "t" (String "_" rest))))))) =>
      option_map Nat.of_uint (NilEmpty.uint_of_string (leading_digits rest))
  | _ => None
  end.

(** * More of the component *)

(** ** The elapsed-time display *)

Fixpoint zeros (k : nat) : string :=
  match k with 0 => EmptyString | S j => String "0" (zeros j) end.

(** [s.padStart(targetLength, '0')] *)
Definition padStart (targetLength : nat) (s : string) : string :=
  (zeros (targetLength - String.length s) ++ s)%string.

(** Lines 253-257. *)
Definition formatTime (seconds : nat) : string :=
  let mins := seconds / 60 in
  let secs := seconds mod 60 in
  (padStart 2 (dec mins) ++ ":" ++ padStart 2 (dec secs))%string.

(** Reading a displayed time back: the digits before the colon are the
    minutes, the digits after it the seconds. *)
Fixpoint after_digits (s : string) : string :=
  match s with
  | String c r => if is_digit c then after_digits r else s
  | EmptyString => EmptyString
  end.

Definition read_number (s : string) : option nat :=
  option_map Nat.of_uint (NilEmpty.uint_of_string s).

Definition read_time (s : string) : option nat :=
  match read_number (leading_digits s), after_digits s with
  | Some m, String ":" r =>
      match read_number r with
      | Some sec => Some (60 * m + sec)
      | None => None
      end
  | _, _ => None
  end.

(** The character of a decimal digit. *)
Definition digit (d : nat) : ascii := ascii_of_nat (48 + d).

(** ** Reading the names of a segment *)

(** [<count>_<time>], whatever follows the time. *)
Definition read_pair (s : string) : option (nat * nat) :=
  match read_number (leading_digits s), after_digits s with
  | Some n, String "_" r =>
      match read_number (leading_digits r) with
      | Some t => Some (n, t)
      | None => None
      end
  | _, _ => None
  end.

(** The count and the time in [recording_<count>_<time>.m4a]. *)
Definition name_fields (f : string) : option (nat * nat) :=
  match f with
  | String "r" (String "e" (String "c" (String "o" (String "r" (String "d"
      (String "i" (String "n" (String "g" (String "_" rest))))))))) =>
      read_pair rest
  | _ => None
  end.

(** The count and the time in [segment_<count>_<time>]. *)
Definition id_fields (i : string) : option (nat * nat) :=
  match i with
  | String "s" (String "e" (String "g" (String "m" (String "e" (String "n"
      (String "t" (String "_" rest))))))) => read_pair rest
  | _ => None
  end.

(** ** The effect clean-up at any time *)

(** What happens to the component: an event, or one more run of the
    clean-up of a render [R], as on unmount. *)
Inductive occurrence : Type :=
| Happens (e : event)
| CleansUp (R : state).

Definition occur (w : world) (o : occurrence) : world :=
  match o with
  | Happens e => step w e
  | CleansUp R => invoke (cleanup R) w
  end.

(** ** Rejections *)

(** The values a call can settle with. *)
Definition answers (c : call) (v : settled) : Prop :=
  exists r w w1, deliver c r w = Some (w1, v).

(** No exception leaves [p], whatever its calls answer.  What a function
    called without [await] does is its own affair. *)
Fixpoint catches (A : Type) (p : Async A) {struct p} : Prop :=
  match p with
  | Ret _ => True
  | Throw => False
  | Read k => forall m, catches (k m)
  | Write _ k => catches k
  | Await c k => forall v, answers c v -> catches (k v)
  | Fork _ k => catches k
  | SetInterval _ _ k => forall t, catches (k t)
  | ClearInterval _ k => catches k
  | OnPlaybackStatus _ _ k => catches k
  end.

Definition rejects (A : Type) (o : outcome A) : bool :=
  match o with Thrown => true | _ => false end.

(** ** Properties that hold between events *)

Section Between.

(** A property of the memory that may be broken inside a function, between
    two writes, but is to hold whenever the component waits for the next
    event. *)
Variable I : mem -> Prop.

(** A small program logic for it.  From memory [m], [p] in the run it
    was called in either returns [a] in a memory with [Qn a], throws in one
    with [En], or stops at an await in one with [Sn]; when [p] is resumed
    later, from any memory with [I], it ends with [Ql], [El] or again at
    an await with [I].  A function called without [await] runs up to its
    first await inside the caller's run; a callback runs later. *)
Fixpoint ends_in (A : Type) (p : Async A) (Qn Ql : A -> mem -> Prop)
  (En El Sn : mem -> Prop) (m : mem) {struct p} : Prop :=
  match p with
  | Ret a => Qn a m
  | Throw => En m
  | Read k => ends_in (k m) Qn Ql En El Sn m
  | Write f k => ends_in k Qn Ql En El Sn (f m)
  | Await _ k => Sn m /\ forall v m', I m' -> ends_in (k v) Ql Ql El El I m'
  | Fork q k =>
      ends_in q (fun _ m1 => ends_in k Qn Ql En El Sn m1) (fun _ => I)
        (fun m1 => ends_in k Qn Ql En El Sn m1) I
        (fun m1 => ends_in k Qn Ql En El Sn m1) m
  | SetInterval cb _ k =>
      (forall m', I m' -> ends_in cb (fun _ => I) (fun _ => I) I I I m')
      /\ forall t, ends_in (k t) Qn Ql En El Sn m
  | ClearInterval _ k => ends_in k Qn Ql En El Sn m
  | OnPlaybackStatus _ cb k =>
      (forall m', I m' -> ends_in cb (fun _ => I) (fun _ => I) I I I m')
      /\ ends_in k Qn Ql En El Sn m
  end.

(** [p], called from an event handler or a timer in a memory with [I],
    always leaves one with [I]. *)
Definition later_fine (A : Type) (p : Async A) : Prop :=
  forall m, I m -> ends_in p (fun _ => I) (fun _ => I) I I I m.

(** [p], awaited by a caller in a memory with [I], hands back one with
    [I] whenever it returns, waits or throws. *)
Definition call_fine (A : Type) (p : Async A) : Prop :=
  forall (Qn Ql : A -> mem -> Prop) (En El Sn : mem -> Prop) (m : mem),
  I m ->
  (forall a m1, I m1 -> Qn a m1) -> (forall a m1, I m1 -> Ql a m1) ->
  (forall m1, I m1 -> En m1) -> (forall m1, I m1 -> El m1) ->
  (forall m1, I m1 -> Sn m1) ->
  ends_in p Qn Ql En El Sn m.

Definition quiet (w : world) : Prop :=
  I (memory w)
  /\ Forall (fun e => later_fine (snd e)) (intervals w)
  /\ Forall (fun e => later_fine (snd e)) (listeners w)
  /\ Forall (fun e => forall v, later_fine (snd e v)) (pending w).

End Between.

(** The state flag and the ref flag say the same, the two interval refs
    are set together, and a sound object is held only while a row is
    marked as playing. *)
Definition coherent (m : mem) : Prop :=
  isRecording (st m) = isRecordingRef (rf m)
  /\ (intervalRef (rf m) = None <-> timerRef (rf m) = None)
  /\ (playingSegmentId (st m) = None -> soundObject (st m) = None).

(** ** More interleavings *)

(** What [getURI()] hands to [moveAsync]. *)
Definition uri_of (h : recordingHandle) : string :=
  match huri h with Some u => u | None => EmptyString end.

(** The native calls [saveCurrentSegment] gets to, given which of them
    succeed and whether the recording has a file. *)
Definition save_calls (ok1 ok2 has : bool) : nat :=
  if ok1 then (if ok2 && has then 3 else 2) else 1.

(** A rotation whose save goes as [ok1] (stop), [ok2] (audio mode) and
    [ok3] (move) say, on a recording that has a file or not ([has]), and
    whose reopen succeeds on file [u]. *)
Definition rotation_with_save (ok1 ok2 has ok3 : bool) (u : option string)
  : list event :=
  Tick 0
  :: firstn (save_calls ok1 ok2 has)
       [Settle 0 (reply_of ok1); Settle 0 (reply_of ok2); Settle 0 (reply_of ok3)]
  ++ [Settle 0 Completes; Settle 0 Completes; Settle 0 (Yields u)].

(** A rotation tick, [j] of its calls settled, then a press on the record
    button (stop) whose audio-mode call settles at once, then the
    remaining calls of the rotation up to its settling delay. *)
Definition stop_during_rotation (j : nat) : list event :=
  Tick 0 :: repeat (Settle 0 Completes) j
  ++ [PressRecord; Settle 0 Completes]
  ++ repeat (Settle 0 Completes) (4 - j).

(** A rotation up to its [createAsync]; stop is pressed and completes;
    then the recording opens on file [u]. *)
Definition stop_during_reopen (u : option string) : list event :=
  Tick 0 :: repeat (Settle 0 Completes) 5
  ++ [PressRecord; Settle 0 Completes; Settle 0 (Yields u)].

(** A session whose stop is pressed while its first rotation is saving;
    afterwards the component is not recording. *)
Definition interrupted_session : list event :=
  start_session (Some "a.m4a") ++ stop_during_rotation 0.

(** One rotation of the interval at index [i], at wall-clock time [t],
    every call succeeding, the next recording on file [u]. *)
Definition rotation_of (i t : nat) (u : option string) : list event :=
  [Clock t; Tick i; Settle 0 Completes; Settle 0 Completes; Settle 0 Completes;
   Settle 0 Completes; Settle 0 Completes; Settle 0 (Yields u)].

(** Ten seconds of a session that was started after a start whose first
    [createAsync] was rejected.  The two intervals which that start left
    active (indices 3 and 2 once the session has its own at 1 and 0) fire
    as well; they are two seconds ahead of the session's. *)
Definition ten_seconds_after_failed_start : list event :=
  let second := [Tick 3; Tick 1] in
  let u := Some "b.m4a" in
  failed_start ++ start_session (Some "a.m4a")
  ++ second ++ second ++ second ++ rotation_of 2 3 u
  ++ second ++ second ++ rotation_of 0 5 u
  ++ second ++ second ++ second ++ rotation_of 2 8 u
  ++ second ++ second ++ rotation_of 0 10 u.

(** A whole session: [D] seconds of recording, then stop at time [t]. *)
Definition whole_session (D : nat) (clock : nat -> nat)
  (file : nat -> option string) (t : nat) : list event :=
  continuous_recording D clock file ++ Clock t :: stop_session.

(** A session from the idle world [w0], [k] rotations and [e] seconds in:
    everything that the session has touched, spelled out. *)
Record in_session (w0 : world) (clock : nat -> nat)
  (file : nat -> option string) (k e : nat) (w : world) : Prop := mkInSession {
  ses_state : st (memory w) =
    mkState (Some (mkHandle (nextRecording w0 + k) (file k))) true
      (recordingSegments (st (memory w0))
       ++ map (fun j => segment_of j (clock j)) (seq 0 k))
      (5 * k + e) (e mod 5)
      (playingSegmentId (st (memory w0))) (soundObject (st (memory w0)));
  ses_refs : rf (memory w) =
    mkRefs (Some (S (nextTimer w0))) (Some (nextTimer w0)) k true
      (Some (mkHandle (nextRecording w0 + k) (file k)));
  ses_alerts : alerts (memory w) = alerts (memory w0);
  ses_open : openRecordings w = openRecordings w0 ++ [nextRecording w0 + k];
  ses_next : nextRecording w = S (nextRecording w0 + k);
  ses_intervals : intervals w =
    (S (nextTimer w0), 5000, fork (handleSegmentSplit (st (memory w0))))
    :: (nextTimer w0, 1000, everySecond) :: intervals w0;
  ses_timer : nextTimer w = S (S (nextTimer w0));
  ses_sounds : loadedSounds w = loadedSounds w0 /\ nextSound w = nextSound w0
               /\ listeners w = listeners w0;
  ses_pending : pending w = pending w0 }.

(** * Proofs *)

(** ** Tactics *)

(** Evaluate the functions, leave the arithmetic, the strings and the
    lists of the world folded. *)
Ltac crunch :=
  lazy -[dec String.append Nat.add Nat.mul Nat.modulo Nat.div id_of fileName_of
         documentDirectory List.app List.filter List.length List.map List.seq
         segment_of List.In].

(** Simplify the projections of a hypothesis, nothing else. *)
Ltac projections H :=
  cbn [memory calls openRecordings loadedSounds nextRecording nextSound
       nextTimer intervals listeners pending st rf alerts now recording
       isRecording recordingSegments recordingTime segmentProgress
       playingSegmentId soundObject intervalRef timerRef segmentCountRef
       isRecordingRef recordingRef huri hid sid] in H.

(** Split a conjunction into its parts, without touching the parts. *)
Ltac splits := repeat match goal with |- _ /\ _ => split end.

(** Name every cell of a world. *)
Ltac open_world w :=
  destruct w as [[[w_rec w_isrec w_segs w_time w_prog w_playing w_sound]
                  [w_ival w_timer w_count w_on w_ref] w_alerts w_now]
                 w_calls w_open w_loaded w_nr w_ns w_nt w_intervals
                 w_listeners w_pending].

(** ** Lists *)

Lemma Forall_filter_keep {X : Type} (P : X -> Prop) (f : X -> bool) (l : list X) :
  Forall P l -> Forall P (filter f l).
Proof.
  induction 1 as [|x l Hx Hl IH]; simpl; [constructor|].
  destruct (f x); [constructor|]; assumption.
Qed.

Lemma Forall_remove_nth {X : Type} (P : X -> Prop) (l : list X) :
  Forall P l -> forall i, Forall P (remove_nth i l).
Proof.
  induction 1 as [|x l Hx Hl IH]; intros i; simpl; [constructor|].
  destruct i; [assumption|]. constructor; auto.
Qed.

Lemma Forall_nth_error_some {X : Type} (P : X -> Prop) (l : list X) :
  Forall P l -> forall i x, nth_error l i = Some x -> P x.
Proof.
  intros Hl i x Hx. rewrite Forall_forall in Hl.
  apply Hl. eapply nth_error_In; eassumption.
Qed.

Lemma run_events_app (es1 es2 : list event) (w : world) :
  run_events (es1 ++ es2) w = run_events es2 (run_events es1 w).
Proof. unfold run_events. apply fold_left_app. Qed.

(** ** Events that leave the sound object alone *)

Lemma same_sound_refl (a : option sound) : same_sound a a = true.
Proof. destruct a as [s|]; simpl; [apply Nat.eqb_refl | reflexivity]. Qed.

(** Such an event is followed by no clean-up. *)
Lemma step_calm (w : world) (e : event) :
  soundObject (st (memory (handle w e))) = soundObject (st (memory w)) ->
  step w e = handle w e.
Proof. intros H. unfold step. rewrite H, same_sound_refl. reflexivity. Qed.

(** An event that changes the sound object is followed by the clean-up of
    the render before. *)
Lemma step_changed (w : world) (e : event) :
  same_sound (soundObject (st (memory w)))
    (soundObject (st (memory (handle w e)))) = false ->
  step w e = invoke (cleanup (st (memory w))) (handle w e).
Proof. intros H. unfold step. rewrite H. reflexivity. Qed.

Lemma run_events_calm (es : list event) :
  forall w, calm es w -> run_events es w = fold_left handle es w.
Proof.
  unfold run_events. induction es as [|e es IH]; intros w H; [reflexivity|].
  destruct H as [He Hes]. cbn [fold_left]. rewrite (step_calm _ _ He).
  apply IH, Hes.
Qed.

(** Check that a run is calm by running it. *)
Ltac calm_check := lazy; repeat split.

(** Replace the runs of the goal, innermost first, by what their events
    run, once they are seen to be calm. *)
Ltac calm_runs :=
  repeat match goal with
  | |- context [run_events ?es ?w] =>
      lazymatch w with
      | context [run_events _ _] => fail
      | context [step _ _] => fail
      | _ => rewrite (@run_events_calm es w) by calm_check
      end
  | |- context [step ?w ?e] =>
      lazymatch w with
      | context [run_events _ _] => fail
      | context [step _ _] => fail
      | _ => rewrite (@step_calm w e) by (lazy; reflexivity)
      end
  end.

(** ** Preservation of a memory invariant *)

Section Preservation.

Variable I : mem -> Prop.

Lemma preserves_bind (A B : Type) (m : Async A) (f : A -> Async B) :
  preserves I m -> (forall a, preserves I (f a)) -> preserves I (bind m f).
Proof.
  intros Hm Hf. change (preserves I (Async_bind m f)).
  induction m; simpl in *; intuition auto.
Qed.

Lemma preserves_try_catch (A : Type) (m h : Async A) :
  preserves I m -> preserves I h -> preserves I (try_catch m h).
Proof.
  intros Hm Hh. induction m; simpl in *; intuition auto.
Qed.

Lemma preserves_write (f : mem -> mem) :
  (forall m, I m -> I (f m)) -> preserves I (write f).
Proof. intros Hf. simpl. auto. Qed.

Lemma preserves_await (c : call) : preserves I (await c).
Proof. intros v. destruct v; simpl; exact Logic.I. Qed.

Lemma preserves_fork (p : Async unit) : preserves I p -> preserves I (fork p).
Proof. intros Hp. simpl. auto. Qed.

Lemma preserves_read (A : Type) (k : mem -> Async A) :
  (forall m, preserves I (k m)) -> preserves I (Read k).
Proof. auto. Qed.

Lemma preserves_clear (A : Type) (t : nat) (k : Async A) :
  preserves I k -> preserves I (ClearInterval t k).
Proof. auto. Qed.

Lemma preserves_interval (A : Type) (cb : Async unit) (ms : nat)
  (k : nat -> Async A) :
  preserves I cb -> (forall t, preserves I (k t)) ->
  preserves I (SetInterval cb ms k).
Proof. simpl; auto. Qed.

Lemma preserves_status (A : Type) (s : sound) (cb : Async unit) (k : Async A) :
  preserves I cb -> preserves I k -> preserves I (OnPlaybackStatus s cb k).
Proof. simpl; auto. Qed.

Lemma park_safe (o : outcome unit) (w : world) :
  safe I w -> safe_outcome I o -> safe I (park o w).
Proof.
  intros (Hm & Hi & Hl & Hp) Ho.
  destruct o; simpl; unfold safe; simpl; auto using Forall_cons.
Qed.

Lemma run_safe (A : Type) (p : Async A) :
  preserves I p ->
  forall w, safe I w ->
  safe I (fst (run p w)) /\ safe_outcome I (snd (run p w)).
Proof.
  induction p as [A a|A|A k IH|A f k IH|A c k IH|A q IHq k IHk
                 |A cb IHcb ms k IHk|A t k IH|A s cb IHcb k IHk];
    simpl; intros Hp w Hw.
  - auto.
  - auto.
  - apply IH; auto.
  - destruct Hp as [Hf Hk]. apply IH; auto.
    destruct Hw as (Hm & Hi & Hl & Hpd). unfold safe; simpl; auto.
  - split; [|assumption].
    destruct Hw as (Hm & Hi & Hl & Hpd). unfold safe; simpl; auto.
  - destruct Hp as [Hq Hk].
    destruct (IHq Hq w Hw) as [Hw1 Ho].
    destruct (run q w) as [w1 o]; simpl in *.
    apply IHk; auto using park_safe.
  - destruct Hp as [Hcb Hk]. apply IHk; auto.
    destruct Hw as (Hm & Hi & Hl & Hpd). unfold safe; simpl.
    repeat split; auto.
  - apply IH; auto.
    destruct Hw as (Hm & Hi & Hl & Hpd). unfold safe; simpl.
    repeat split; auto using Forall_filter_keep.
  - destruct Hp as [Hcb Hk]. apply IHk; auto.
    destruct Hw as (Hm & Hi & Hl & Hpd). unfold safe; simpl.
    repeat split; auto using Forall_filter_keep.
Qed.

Lemma invoke_safe (p : Async unit) (w : world) :
  preserves I p -> safe I w -> safe I (invoke p w).
Proof.
  intros Hp Hw. unfold invoke.
  destruct (run_safe p Hp Hw) as [Hw1 Ho].
  destruct (run p w) as [w1 o]; simpl in *.
  auto using park_safe.
Qed.

Lemma deliver_safe (c : call) (r : reply) (w w1 : world) (v : settled) :
  deliver c r w = Some (w1, v) -> safe I w -> safe I w1.
Proof.
  intros Hd (Hm & Hi & Hl & Hpd).
  destruct c, r; simpl in Hd; inversion Hd; subst;
    unfold safe; simpl; auto.
Qed.

Lemma settle_safe (i : nat) (r : reply) (w : world) :
  safe I w -> safe I (settle i r w).
Proof.
  intros Hw. unfold settle.
  destruct (nth_error (pending w) i) as [[c k]|] eqn:Hi; [|assumption].
  destruct (deliver c r _) as [[w1 v]|] eqn:Hd; [|assumption].
  assert (Hk : forall v, preserves I (k v)).
  { destruct Hw as (_ & _ & _ & Hpd).
    exact (Forall_nth_error_some Hpd i Hi). }
  apply invoke_safe; [apply Hk|].
  eapply deliver_safe; [eassumption|].
  destruct Hw as (Hm & Hiv & Hl & Hpd). unfold safe; simpl.
  auto using Forall_remove_nth.
Qed.

Hypothesis clock_kept : forall t m, I m -> I (set_now t m).
Hypothesis button_kept : forall R, preserves I (handleRecordButtonPress R).
Hypothesis row_kept : forall R seg, preserves I (playSegment R seg).
Hypothesis cleanup_kept : forall R, preserves I (cleanup R).

Lemma handle_safe (e : event) (w : world) : safe I w -> safe I (handle w e).
Proof.
  intros Hw. destruct e as [|n|i|i r|s|t]; simpl.
  - apply invoke_safe; auto.
  - destruct (nth_error _ n); [apply invoke_safe|]; auto.
  - destruct (nth_error (intervals w) i) as [[[t ms] cb]|] eqn:Hi; [|assumption].
    apply invoke_safe; [|assumption].
    destruct Hw as (_ & Hiv & _ & _).
    exact (Forall_nth_error_some Hiv i Hi).
  - apply settle_safe; assumption.
  - destruct (existsb _ _); [|assumption].
    destruct (find _ (listeners w)) as [[s' cb]|] eqn:Hf; [|assumption].
    apply invoke_safe; [|assumption].
    destruct Hw as (_ & _ & Hl & _).
    rewrite Forall_forall in Hl.
    apply find_some in Hf. exact (Hl _ (proj1 Hf)).
  - destruct Hw as (Hm & Hiv & Hl & Hpd). unfold safe; simpl; auto.
Qed.

Lemma step_safe (e : event) (w : world) : safe I w -> safe I (step w e).
Proof.
  intros Hw. unfold step.
  destruct (same_sound _ _); [|apply invoke_safe; [apply cleanup_kept|]];
    apply handle_safe, Hw.
Qed.

Lemma run_events_safe (es : list event) :
  forall w, safe I w -> safe I (run_events es w).
Proof.
  unfold run_events.
  induction es as [|e es IH]; simpl; intros w Hw; [assumption|].
  apply IH, step_safe, Hw.
Qed.

End Preservation.

(** One syntactic step of a preservation proof. *)
Ltac keeps_step :=
  match goal with
  | |- forall _, _ => intro
  | |- preserves _ (bind _ _) => apply preserves_bind
  | |- preserves _ (try_catch _ _) => apply preserves_try_catch
  | |- preserves _ (await _) => apply preserves_await
  | |- preserves _ (fork _) => apply preserves_fork
  | |- preserves _ (write _) => apply preserves_write
  | |- preserves _ (Read _) => apply preserves_read
  | |- preserves _ (ret _) => exact Logic.I
  | |- preserves _ (Ret _) => exact Logic.I
  | |- preserves _ Throw => exact Logic.I
  | |- preserves _ (ClearInterval _ _) => apply preserves_clear
  | |- preserves _ (SetInterval _ _ _) => apply preserves_interval
  | |- preserves _ (OnPlaybackStatus _ _ _) => apply preserves_status
  | |- preserves _ (match ?x with _ => _ end) => destruct x
  end.

Ltac keeps := repeat keeps_step.

(** The clean-up writes nothing. *)
Lemma cleanup_keeps (I : mem -> Prop) (R : state) : preserves I (cleanup R).
Proof. unfold cleanup, clearIntervalOf. keeps. Qed.

(** ** The progress counter stays below five *)

Lemma saveCurrentSegment_keeps (R : state) :
  preserves progress_in_range (saveCurrentSegment R).
Proof. unfold saveCurrentSegment. keeps; auto. Qed.

Lemma stopRecording_keeps (R : state) :
  preserves progress_in_range (stopRecording R).
Proof.
  unfold stopRecording, clearIntervalOf.
  keeps; auto using saveCurrentSegment_keeps.
  all: unfold progress_in_range; simpl; lia.
Qed.

Lemma startNewSegment_keeps (R : state) :
  preserves progress_in_range (startNewSegment R).
Proof. unfold startNewSegment. keeps; auto using stopRecording_keeps. Qed.

Lemma handleSegmentSplit_keeps (R : state) :
  preserves progress_in_range (handleSegmentSplit R).
Proof.
  unfold handleSegmentSplit.
  keeps; auto using saveCurrentSegment_keeps, startNewSegment_keeps.
  all: unfold progress_in_range; simpl; lia.
Qed.

Lemma everySecond_keeps : preserves progress_in_range everySecond.
Proof.
  unfold everySecond. keeps; auto.
  unfold progress_in_range, setSegmentProgress, on_st; cbn [st segmentProgress].
  apply Nat.mod_upper_bound. lia.
Qed.

Lemma startRecording_keeps (R : state) :
  preserves progress_in_range (startRecording R).
Proof.
  unfold startRecording.
  keeps; auto using everySecond_keeps, handleSegmentSplit_keeps,
    startNewSegment_keeps.
Qed.

Lemma handleRecordButtonPress_keeps (R : state) :
  preserves progress_in_range (handleRecordButtonPress R).
Proof.
  unfold handleRecordButtonPress.
  keeps; auto using startRecording_keeps, stopRecording_keeps.
Qed.

Lemma playSegment_keeps (R : state) (seg : segment) :
  preserves progress_in_range (playSegment R seg).
Proof. unfold playSegment, onDidJustFinish. keeps; auto. Qed.

Lemma mounted_safe : safe progress_in_range mounted.
Proof.
  unfold safe, progress_in_range; simpl.
  repeat split; try constructor. lia.
Qed.

Lemma progress_always_in_range (es : list event) :
  segmentProgress (st (memory (run_events es mounted))) < 5.
Proof.
  apply (run_events_safe (I := progress_in_range)); try exact mounted_safe.
  - intros t m Hm. exact Hm.
  - exact handleRecordButtonPress_keeps.
  - exact playSegment_keeps.
  - apply cleanup_keeps.
Qed.

Lemma second_tick_advances (w : world) :
  segmentProgress (st (memory (invoke everySecond w)))
  = (segmentProgress (st (memory w)) + 1) mod 5.
Proof. reflexivity. Qed.

Lemma stop_resets_progress (R : state) (w : world) :
  segmentProgress (st (memory (invoke (stopRecording R) w))) = 0.
Proof.
  open_world w. destruct R as [[h|] ? ? ? ? ? ?].
  all: repeat match goal with o : option _ |- _ => destruct o end.
  all: reflexivity.
Qed.

(** Whatever the three calls of [saveCurrentSegment] answer, the rotation
    gets to its settling delay after at most three of them, and the
    progress is 0 there. *)
Lemma rotation_resets_progress (R : state) (w : world) (ok1 ok2 ok3 : bool) :
  isRecordingRef (rf (memory w)) = true ->
  truthy (recording R) || truthy (recordingRef (rf (memory w))) = true ->
  exists n w' k,
    n <= 3
    /\ drive_from (firstn n [reply_of ok1; reply_of ok2; reply_of ok3])
         (handleSegmentSplit R) w = (w', Awaiting (timeout 100) k)
    /\ segmentProgress (st (memory w')) = 0.
Proof.
  intros Hon Hrec. open_world w. projections Hon. projections Hrec. subst.
  destruct R as [r0 ? ? ? ? ? ?]. projections Hrec.
  destruct w_ref as [[i [[|c s]|]]|]; destruct r0 as [[i0 [[|c0 s0]|]]|];
    try discriminate Hrec; destruct ok1, ok2, ok3.
  all: first
      [ exists 1; do 2 eexists; split; [lia|]; split; reflexivity
      | exists 2; do 2 eexists; split; [lia|]; split; reflexivity
      | exists 3; do 2 eexists; split; [lia|]; split; reflexivity ].
Qed.

(** C6. [segmentProgress] is below 5 in every world the mounted component
    can reach; the one-second callback takes it to (p + 1) mod 5; a
    rotation that passes its guard has set it to 0 when it reaches the
    settling delay, however the save went; [stopRecording] sets it to 0
    before its first await. *)
Theorem progress_cycle :
  (forall es, segmentProgress (st (memory (run_events es mounted))) < 5)
  /\ (forall w, segmentProgress (st (memory (invoke everySecond w)))
               = (segmentProgress (st (memory w)) + 1) mod 5)
  /\ (forall R w ok1 ok2 ok3,
        isRecordingRef (rf (memory w)) = true ->
        truthy (recording R) || truthy (recordingRef (rf (memory w))) = true ->
        exists n w' k,
          n <= 3
          /\ drive_from (firstn n [reply_of ok1; reply_of ok2; reply_of ok3])
               (handleSegmentSplit R) w = (w', Awaiting (timeout 100) k)
          /\ segmentProgress (st (memory w')) = 0)
  /\ (forall R w, segmentProgress (st (memory (invoke (stopRecording R) w))) = 0).
Proof.
  split; [exact progress_always_in_range|].
  split; [exact second_tick_advances|].
  split; [exact rotation_resets_progress|].
  exact stop_resets_progress.
Qed.

(** A session one second before its first rotation, and the rotation with
    a move that rejects. *)
Lemma progress_cycle_witness :
  let w := run_events (start_session (Some "a.m4a") ++ repeat (Tick 1) 4) mounted in
  segmentProgress (st (memory w)) = 4
  /\ isRecordingRef (rf (memory w)) = true
  /\ truthy (recording initial_state) || truthy (recordingRef (rf (memory w))) = true
  /\ exists n w' k,
       n <= 3
       /\ drive_from (firstn n [reply_of true; reply_of true; reply_of false])
            (handleSegmentSplit initial_state) w = (w', Awaiting (timeout 100) k)
       /\ segmentProgress (st (memory w')) = 0.
Proof.
  intros w. split; [reflexivity|]. split; [reflexivity|]. split; [reflexivity|].
  apply (proj1 (proj2 (proj2 progress_cycle))); reflexivity.
Defined.

(** ** Rotation *)

Lemma leading_digits_uint (d : uint) (r : string) :
  leading_digits (NilEmpty.string_of_uint d ++ String "_" r)%string
  = NilEmpty.string_of_uint d.
Proof. induction d; simpl; try rewrite IHd; reflexivity. Qed.

Lemma sequence_number_id_of (n t : nat) : sequence_number (id_of n t) = Some n.
Proof.
  unfold id_of, dec. cbn [String.append sequence_number].
  change ("_" ++ NilEmpty.string_of_uint (Nat.to_uint t))%string
    with (String "_" (NilEmpty.string_of_uint (Nat.to_uint t))).
  rewrite leading_digits_uint, NilEmpty.usu. simpl.
  f_equal. apply Unsigned.of_to.
Qed.

Lemma id_of_inj (n n' t t' : nat) : id_of n t = id_of n' t' -> n = n'.
Proof.
  intros H. apply (f_equal sequence_number) in H.
  rewrite !sequence_number_id_of in H. congruence.
Qed.

Lemma rotation_ids_NoDup (clock : nat -> nat) (n : nat) :
  NoDup (map id (map (fun k => segment_of k (clock k)) (seq 0 n))).
Proof.
  rewrite map_map. apply NoDup_map_NoDup_ForallPairs.
  - intros x y _ _ H. exact (id_of_inj H).
  - apply seq_NoDup.
Qed.

Lemma rotation_numbers (clock : nat -> nat) (n : nat) :
  map (fun s => sequence_number (id s))
      (map (fun k => segment_of k (clock k)) (seq 0 n))
  = map Some (seq 0 n).
Proof.
  rewrite map_map. apply map_ext. intros k. apply sequence_number_id_of.
Qed.

Lemma session_opens (w : world) (clock : nat -> nat) (u : option string) :
  isRecording (st (memory w)) = false ->
  recording (st (memory w)) = None ->
  recordingRef (rf (memory w)) = None ->
  segmentCountRef (rf (memory w)) = 0 ->
  has_uri u = true ->
  rotating (st (memory w)) (recordingSegments (st (memory w)))
    (recordingTime (st (memory w))) (pending w) clock 0
    (run_events (start_session u) w).
Proof.
  intros H1 H2 H3 H4 Hu. open_world w.
  projections H1; projections H2; projections H3; projections H4. subst.
  destruct u as [[|c' s']|]; try discriminate.
  calm_runs. constructor; crunch.
  - eexists; repeat split.
  - split; reflexivity.
  - reflexivity.
  - rewrite app_nil_r. reflexivity.
  - lia.
  - do 3 eexists. reflexivity.
  - reflexivity.
Qed.

Lemma one_rotation (R0 : state) (segs0 : list segment) (t0 : nat)
  (pd : list (call * (settled -> Async unit))) (clock : nat -> nat) (k : nat)
  (w : world) (u : option string) :
  recording R0 = None -> has_uri u = true ->
  rotating R0 segs0 t0 pd clock k w ->
  rotating R0 segs0 t0 pd clock (S k) (run_events (five_seconds (clock k) u) w).
Proof.
  intros HR Hu [(h & Hh1 & Hh2 & Hh3) [Hon1 Hon2] Hcount Hsegs Htime
                (i2 & i1 & rest & Hiv) Hpd].
  open_world w.
  projections Hh1; projections Hh2; projections Hon1; projections Hon2;
    projections Hcount; projections Hsegs; projections Htime;
    projections Hiv; projections Hpd.
  subst.
  destruct h as [i [[|c s]|]]; try discriminate.
  destruct u as [[|c' s']|]; try discriminate.
  destruct R0 as [r0 ir0 segs00 tm0 pr0 pl0 so0]; projections HR; subst r0.
  calm_runs. constructor; crunch.
  - eexists; repeat split.
  - split; reflexivity.
  - lia.
  - rewrite seq_S, map_app, app_assoc. reflexivity.
  - lia.
  - do 3 eexists. reflexivity.
  - reflexivity.
Qed.

Lemma rotations_S (n : nat) (clock : nat -> nat) (file : nat -> option string) :
  rotations (S n) clock file
  = rotations n clock file ++ five_seconds (clock n) (file (S n)).
Proof.
  unfold rotations. rewrite seq_S, flat_map_app. reflexivity.
Qed.

Lemma many_rotations (R0 : state) (segs0 : list segment) (t0 : nat)
  (pd : list (call * (settled -> Async unit))) (clock : nat -> nat)
  (file : nat -> option string) (w : world) :
  recording R0 = None -> (forall k, has_uri (file k) = true) ->
  rotating R0 segs0 t0 pd clock 0 w ->
  forall n, rotating R0 segs0 t0 pd clock n (run_events (rotations n clock file) w).
Proof.
  intros HR Hfile Hw. induction n as [|n IH].
  - exact Hw.
  - rewrite rotations_S, run_events_app. apply one_rotation; auto.
Qed.

(** The rotation count when the counter is at 0 and the two intervals of
    the session are the only ones that fire: a recording started from a
    world that is not recording, that runs for [D] seconds, [D] a positive
    multiple of 5, every call succeeding on a recording with a file,
    appends exactly [D / 5] segments by rotation, the k-th built under
    count k, so that their ids carry the numbers 0 .. D/5 - 1 in order and
    are pairwise distinct. *)
Lemma rotation_count (w : world) (D : nat) (clock : nat -> nat)
  (file : nat -> option string) :
  isRecording (st (memory w)) = false ->
  recording (st (memory w)) = None ->
  recordingRef (rf (memory w)) = None ->
  segmentCountRef (rf (memory w)) = 0 ->
  (forall k, has_uri (file k) = true) ->
  0 < D -> D mod 5 = 0 ->
  let w' := run_events (continuous_recording D clock file) w in
  let produced := map (fun k => segment_of k (clock k)) (seq 0 (D / 5)) in
  recordingSegments (st (memory w')) = recordingSegments (st (memory w)) ++ produced
  /\ List.length produced = D / 5
  /\ map (fun s => sequence_number (id s)) produced = map Some (seq 0 (D / 5))
  /\ NoDup (map id produced)
  /\ segmentCountRef (rf (memory w')) = D / 5
  /\ recordingTime (st (memory w')) = recordingTime (st (memory w)) + D
  /\ isRecording (st (memory w')) = true
  /\ pending w' = pending w.
Proof.
  intros H1 H2 H3 H4 Hfile HD Hmod w' produced.
  assert (Hrot : rotating (st (memory w)) (recordingSegments (st (memory w)))
            (recordingTime (st (memory w))) (pending w) clock (D / 5) w').
  { unfold w', continuous_recording.
    rewrite Hmod. simpl repeat. rewrite app_nil_r, run_events_app.
    apply many_rotations; auto.
    apply session_opens; auto. }
  destruct Hrot as [_ [Hon _] Hcount Hsegs Htime _ Hpd].
  repeat split; auto.
  - unfold produced. rewrite length_map, length_seq. reflexivity.
  - apply rotation_numbers.
  - apply rotation_ids_NoDup.
  - rewrite Htime. f_equal.
    pose proof (Nat.div_mod_eq D 5) as E. lia.
Qed.

(** Ten seconds from the mounted component give two segments, numbered 0
    and 1. *)
Lemma rotation_count_witness :
  isRecording (st (memory mounted)) = false
  /\ recording (st (memory mounted)) = None
  /\ recordingRef (rf (memory mounted)) = None
  /\ segmentCountRef (rf (memory mounted)) = 0
  /\ (forall k : nat, has_uri (Some "rec.m4a") = true)
  /\ 0 < 10 /\ 10 mod 5 = 0
  /\ map id (recordingSegments (st (memory
        (run_events (continuous_recording 10 (fun k => 5000 * S k)
                       (fun _ => Some "rec.m4a")) mounted))))
     = ["segment_0_5000"; "segment_1_10000"]%string.
Proof.
  repeat (split; [first [reflexivity | lia | intro; reflexivity]|]).
  rewrite (proj1 (@rotation_count mounted 10 (fun k => 5000 * S k)
                    (fun _ => Some "rec.m4a") eq_refl eq_refl eq_refl eq_refl
                    (fun _ => eq_refl) (Nat.lt_0_succ 9) eq_refl)).
  reflexivity.
Defined.

(** C3. The count and the numbers depend on what came before the
    recording.  (1) After a session whose stop was pressed while its first
    rotation was saving, the component is not recording, holds no
    recording, has no interval and nothing pending, but its counter is 1:
    the reset of line 107 ran before the rotation's increment of line
    179.  A continuous recording of ten seconds from there produces two
    segments by rotation, numbered 1 and 2.  (2) After a start whose first
    [createAsync] was rejected the two intervals of that start are still
    active; in ten seconds of the next session the stale five-second
    interval rotates as well, and four segments are produced, numbered 0
    to 3. *)
Theorem rotation_numbers_depend_on_history :
  let w := run_events interrupted_session mounted in
  let w' := run_events (continuous_recording 10 (fun k => 100 + k)
                          (fun _ => Some "b.m4a")) w in
  let v := run_events ten_seconds_after_failed_start mounted in
  (isRecording (st (memory w)) = false
   /\ recording (st (memory w)) = None
   /\ recordingRef (rf (memory w)) = None
   /\ intervals w = []
   /\ pending w = []
   /\ List.length (recordingSegments (st (memory w))) = 1
   /\ segmentCountRef (rf (memory w)) = 1
   /\ map (fun s => sequence_number (id s))
        (skipn 1 (recordingSegments (st (memory w'))))
      = [Some 1; Some 2])
  /\ (isRecording (st (memory v)) = true
      /\ map (fun s => sequence_number (id s))
           (recordingSegments (st (memory v)))
         = [Some 0; Some 1; Some 2; Some 3]).
Proof. repeat split. Qed.

(** ** Start *)

(** C9. When the permission request resolves to anything but granted, the
    world after the press and the denial is the world before them with one
    native call issued (the request) and one alert shown (permission
    needed): state and refs are unchanged, [isRecording] is still false,
    no interval was created and no recording was opened. *)
Theorem permission_denied (w : world) (s : permissionStatus) :
  isRecording (st (memory w)) = false ->
  s <> granted ->
  let w' := run_events [PressRecord; Settle 0 (Grants s)] w in
  w' = on_memory (show PermissionNeeded) (issue requestPermissionsAsync w)
  /\ isRecording (st (memory w')) = false
  /\ st (memory w') = st (memory w)
  /\ rf (memory w') = rf (memory w)
  /\ alerts (memory w') = alerts (memory w) ++ [PermissionNeeded]
  /\ calls w' = calls w ++ [requestPermissionsAsync]
  /\ intervals w' = intervals w
  /\ openRecordings w' = openRecordings w
  /\ pending w' = pending w.
Proof.
  intros Hrec Hs w'.
  assert (E : w' = on_memory (show PermissionNeeded)
                     (issue requestPermissionsAsync w)).
  { unfold w'. open_world w. projections Hrec. subst.
    destruct s; try congruence; calm_runs; reflexivity. }
  rewrite E. repeat split; try reflexivity. exact Hrec.
Qed.

Lemma permission_denied_witness :
  isRecording (st (memory mounted)) = false
  /\ denied <> granted
  /\ run_events [PressRecord; Settle 0 (Grants denied)] mounted
     = on_memory (show PermissionNeeded) (issue requestPermissionsAsync mounted).
Proof.
  split; [reflexivity|]. split; [discriminate|].
  apply (@permission_denied mounted denied); [reflexivity|discriminate].
Defined.

(** C2. On the mounted component, when the first [createAsync] rejects:
    [isRecording] ends up false and no segment exists, but the rejection
    is caught inside [startNewSegment], so [startRecording] goes on and
    creates both intervals (they are active afterwards and the one-second
    one still counts), its own handler and its alert (line 65) never run,
    and the alerts shown are the segment-start error followed by a
    completion summary of 0 files. *)
Theorem first_open_failure_leaves_timers :
  let w := run_events failed_start mounted in
  isRecording (st (memory w)) = false
  /\ recordingSegments (st (memory w)) = []
  /\ alerts (memory w) = [SegmentStartError; RecordingDone 0]
  /\ map fst (intervals w) = [(2, 5000); (1, 1000)]
  /\ timerRef (rf (memory w)) = Some 1
  /\ intervalRef (rf (memory w)) = Some 2
  /\ recordingTime (st (memory (run_events [Tick 1; Tick 1; Tick 1] w))) = 3.
Proof. repeat split. Qed.

(** What the start does when the rejected call is one of its own (line 42):
    the handler of line 63 runs, one start error is shown and nothing is
    left behind. *)
Lemma own_failure_rolls_back (w : world) :
  isRecording (st (memory w)) = false ->
  isRecordingRef (rf (memory w)) = false ->
  run_events [PressRecord; Settle 0 (Grants granted); Settle 0 Rejects] w
  = on_memory (show StartError)
      (issue (setAudioModeAsync true) (issue requestPermissionsAsync w)).
Proof.
  intros H1 H2. open_world w. projections H1. projections H2. subst.
  calm_runs. reflexivity.
Qed.

(** ** One recording at a time *)

(** The guard of line 113. *)
Lemma startNewSegment_skips (R : state) (w : world) :
  truthy (recording R) || truthy (recordingRef (rf (memory w))) = true ->
  run (startNewSegment R) w = (w, Returned tt).
Proof.
  intros H. open_world w. projections H.
  destruct R as [r0 ? ? ? ? ? ?]. projections H.
  destruct r0, w_ref; try discriminate H; reflexivity.
Qed.

(** Lines 146-151: when [saveCurrentSegment] stops at its first await, both
    references to the recording are already cleared. *)
Lemma saveCurrentSegment_clears_first (R : state) (w : world) (h : recordingHandle) :
  recordingRef (rf (memory w)) = Some h ->
  exists k,
    run (saveCurrentSegment R) w
    = (on_memory (set_recordingRef None)
         (on_memory (setRecording None) (issue (stopAndUnloadAsync h) w)),
       Awaiting (stopAndUnloadAsync h) k).
Proof.
  intros H. open_world w. projections H. subst.
  destruct R as [[r0|] ? ? ? ? ? ?]; eexists; reflexivity.
Qed.

(** C1. Two presses of the record button before the first one has set
    [isRecording]: both calls of [startNewSegment] pass the guard, since
    the reference is only written after [createAsync], and two recordings
    are open at once while the session is active. *)
Theorem double_start_opens_two_recordings :
  let w := run_events double_tap mounted in
  openRecordings w = [0; 1]
  /\ isRecording (st (memory w)) = true
  /\ recordingRef (rf (memory w)) = Some (mkHandle 1 (Some "b.m4a"))
  /\ calls w = [requestPermissionsAsync; requestPermissionsAsync;
                setAudioModeAsync true; setAudioModeAsync true; createRecording;
                setAudioModeAsync true; setAudioModeAsync true; createRecording].
Proof. repeat split. Qed.

(** The same with single presses, when the first [createAsync] is slow. *)
Lemma restart_opens_two_recordings :
  let w := run_events start_stop_start mounted in
  openRecordings w = [0; 1] /\ isRecording (st (memory w)) = true.
Proof. repeat split. Qed.

(** ** Stop *)

(** C4, as stated, fails after a session that was started and stopped:
    the component is not recording, its summary (1 file) has been shown,
    and [stopRecording] called there shows the same summary again. *)
Lemma stop_when_idle_not_noop :
  ~ stop_is_noop (run_events (short_session 1000 "a.m4a") mounted).
Proof.
  unfold stop_is_noop. intros H.
  apply (f_equal alerts) in H. vm_compute in H. discriminate H.
Qed.

(** C4, amended. [stopRecording] called when not recording saves nothing and
    leaves state and refs as they are, but it issues the audio-mode call
    and shows one completion summary with the length of the list; the
    record button does not call it then, it calls [startRecording]. *)
Theorem stop_when_idle (w : world) :
  idle (memory w) ->
  stop_now w
  = on_memory
      (show (RecordingDone (List.length (recordingSegments (st (memory w))))))
      (issue (setAudioModeAsync false) w)
  /\ st (memory (stop_now w)) = st (memory w)
  /\ rf (memory (stop_now w)) = rf (memory w)
  /\ step w PressRecord = invoke (startRecording (st (memory w))) w.
Proof.
  intros (H1 & H2 & H3 & H4 & H5).
  assert (E : stop_now w
              = on_memory
                  (show (RecordingDone
                           (List.length (recordingSegments (st (memory w))))))
                  (issue (setAudioModeAsync false) w)
              /\ step w PressRecord = invoke (startRecording (st (memory w))) w).
  { open_world w.
    projections H1; projections H2; projections H3; projections H4;
      projections H5.
    subst. inversion H5; subst. split; [|calm_runs]; reflexivity. }
  destruct E as [E1 E2]. rewrite E1. repeat split; assumption.
Qed.

Lemma stop_when_idle_witness :
  let w := run_events (short_session 1000 "a.m4a") mounted in
  idle (memory w)
  /\ alerts (memory w) = [RecordingDone 1]
  /\ alerts (memory (stop_now w)) = [RecordingDone 1; RecordingDone 1]
  /\ st (memory (stop_now w)) = st (memory w).
Proof.
  intros w.
  assert (H : idle (memory w)) by (repeat split).
  split; [exact H|]. split; [reflexivity|].
  destruct (@stop_when_idle w H) as (E & Hst & _ & _).
  split; [rewrite E; reflexivity | exact Hst].
Defined.

(** C5, as stated, fails on a second session: after one short session the
    list holds one segment; a second short session saves one more and its
    summary says 2. *)
Lemma summary_counts_earlier_sessions :
  ~ summary_counts_session (run_events (short_session 1000 "a.m4a") mounted)
      (short_session 2000 "b.m4a").
Proof.
  unfold summary_counts_session. intros [earlier H].
  vm_compute in H.
  change [RecordingDone 1; RecordingDone 2]
    with ([RecordingDone 1] ++ [RecordingDone 2]) in H.
  apply app_inj_tail in H. destruct H as [_ H]. discriminate H.
Qed.

(** C5, amended. When stop is pressed on a recording with a file and every
    call succeeds, the last segment is appended to the list of the render
    and the summary reports the length of the whole list: everything that
    was in it before, from this session or an earlier one, plus one. *)
Theorem stop_summary_is_list_length (w : world) (h : recordingHandle) :
  isRecording (st (memory w)) = true ->
  recording (st (memory w)) = Some h ->
  recordingRef (rf (memory w)) = Some h ->
  has_uri (huri h) = true ->
  let w' := run_events stop_session w in
  recordingSegments (st (memory w'))
  = recordingSegments (st (memory w))
    ++ [segment_of (segmentCountRef (rf (memory w))) (now (memory w))]
  /\ alerts (memory w')
     = alerts (memory w)
       ++ [RecordingDone (List.length (recordingSegments (st (memory w'))))]
  /\ List.length (recordingSegments (st (memory w')))
     = List.length (recordingSegments (st (memory w))) + 1
  /\ segmentCountRef (rf (memory w')) = 0
  /\ isRecording (st (memory w')) = false
  /\ pending w' = pending w.
Proof.
  intros H1 H2 H3 H4 w'. unfold w'. open_world w.
  projections H1; projections H2; projections H3. subst.
  destruct h as [i [[|c s]|]]; try discriminate.
  destruct w_ival, w_timer; calm_runs; crunch; splits; try reflexivity.
  all: rewrite length_app; reflexivity.
Qed.

Lemma stop_summary_is_list_length_witness :
  let w := run_events (short_session 1000 "a.m4a" ++ start_session (Some "b.m4a"))
             mounted in
  isRecording (st (memory w)) = true
  /\ recording (st (memory w)) = Some (mkHandle 1 (Some "b.m4a"))
  /\ recordingRef (rf (memory w)) = Some (mkHandle 1 (Some "b.m4a"))
  /\ has_uri (Some "b.m4a") = true
  /\ alerts (memory (run_events stop_session w))
     = [RecordingDone 1; RecordingDone 2].
Proof.
  intros w. repeat (split; [reflexivity|]).
  rewrite (proj1 (proj2 (@stop_summary_is_list_length w
                           (mkHandle 1 (Some "b.m4a"))
                           eq_refl eq_refl eq_refl eq_refl))).
  reflexivity.
Defined.

(** ** A rotation that cannot reopen *)

Lemma tick_step (w : world) (i t ms : nat) (cb : Async unit) :
  nth_error (intervals w) i = Some (t, ms, cb) ->
  handle w (Tick i) = invoke cb w.
Proof. intros H. cbn [handle]. rewrite H. reflexivity. Qed.

Lemma not_in_filtered (ti ts : nat) (l : list (nat * nat * Async unit)) :
  forall e,
    In e (filter (fun e => negb (Nat.eqb (fst (fst e)) ts))
            (filter (fun e => negb (Nat.eqb (fst (fst e)) ti)) l)) ->
    fst (fst e) <> ti /\ fst (fst e) <> ts.
Proof.
  intros e He. apply filter_In in He. destruct He as [He Hts].
  apply filter_In in He. destruct He as [_ Hti].
  apply negb_true_iff in Hts, Hti.
  apply Nat.eqb_neq in Hts, Hti. auto.
Qed.

(** C10. In a running session (started from a render without a recording,
    its two intervals in the refs), a rotation that saves its segment and
    whose [createAsync] then rejects: at the rejection the segment-start
    error is shown and [stopRecording] has set [isRecording] and its ref to
    false, cleared both intervals and their refs and reset the timer and
    the progress; once its audio-mode call settles it shows the summary
    and resets the counter.  [createAsync] was called once: nothing is
    retried and no interval is left to rotate again. *)
Theorem reopen_failure_aborts (w : world) (R : state) (h : recordingHandle)
  (u : string) (i ti ts : nat) :
  recording R = None ->
  isRecordingRef (rf (memory w)) = true ->
  recordingRef (rf (memory w)) = Some h ->
  huri h = Some u -> has_uri (Some u) = true ->
  intervalRef (rf (memory w)) = Some ti ->
  timerRef (rf (memory w)) = Some ts ->
  nth_error (intervals w) i = Some (ti, 5000, fork (handleSegmentSplit R)) ->
  let w1 := run_events (rotation_with_failed_open i) w in
  let w2 := step w1 (Settle 0 Completes) in
  (isRecording (st (memory w1)) = false
   /\ isRecordingRef (rf (memory w1)) = false
   /\ intervalRef (rf (memory w1)) = None
   /\ timerRef (rf (memory w1)) = None
   /\ (forall e, In e (intervals w1) -> fst (fst e) <> ti /\ fst (fst e) <> ts)
   /\ recordingTime (st (memory w1)) = 0
   /\ segmentProgress (st (memory w1)) = 0
   /\ recordingRef (rf (memory w1)) = None
   /\ alerts (memory w1) = alerts (memory w) ++ [SegmentStartError])
  /\ (alerts (memory w2)
      = alerts (memory w)
        ++ [SegmentStartError; RecordingDone (List.length (recordingSegments R))]
      /\ segmentCountRef (rf (memory w2)) = 0
      /\ isRecording (st (memory w2)) = false
      /\ intervals w2 = intervals w1
      /\ nextRecording w2 = nextRecording w
      /\ calls w2
         = calls w
           ++ [stopAndUnloadAsync h; setAudioModeAsync false;
               moveAsync u
                 (documentDirectory
                  ++ fileName_of (segmentCountRef (rf (memory w)))
                       (now (memory w)));
               timeout 100; setAudioModeAsync true; createRecording;
               setAudioModeAsync false]
      /\ pending w2 = pending w).
Proof.
  intros HR Hon Href Hu Huri Hti Hts Hi w1 w2.
  unfold w2, w1, rotation_with_failed_open, run_events. cbn [fold_left].
  open_world w. projections Hon; projections Href; projections Hti;
    projections Hts. subst.
  destruct h as [hi hu]. projections Hu. subst hu.
  destruct u as [|c s]; try discriminate.
  destruct R as [r0 ? ? ? ? ? ?]. projections HR. subst r0.
  rewrite (@step_calm _ (Tick i))
    by (rewrite (@tick_step _ i ti 5000 _ Hi); lazy; reflexivity).
  rewrite (@tick_step _ i ti 5000 _ Hi).
  calm_runs.
  split; splits.
  5: intros e.
  all: crunch; try reflexivity.
  - apply not_in_filtered.
  - rewrite <- app_assoc. reflexivity.
  - repeat rewrite <- app_assoc. reflexivity.
Qed.

(** The first rotation of a session from the mounted component. *)
Lemma reopen_failure_aborts_witness :
  let w := run_events (start_session (Some "a.m4a")) mounted in
  recording initial_state = None
  /\ isRecordingRef (rf (memory w)) = true
  /\ recordingRef (rf (memory w)) = Some (mkHandle 0 (Some "a.m4a"))
  /\ has_uri (Some "a.m4a") = true
  /\ intervalRef (rf (memory w)) = Some 2
  /\ timerRef (rf (memory w)) = Some 1
  /\ nth_error (intervals w) 0
     = Some (2, 5000, fork (handleSegmentSplit initial_state))
  /\ alerts (memory (step (run_events (rotation_with_failed_open 0) w)
                       (Settle 0 Completes)))
     = [SegmentStartError; RecordingDone 0].
Proof.
  intros w. repeat (split; [reflexivity|]).
  exact (proj1 (proj2 (@reopen_failure_aborts w initial_state
                         (mkHandle 0 (Some "a.m4a")) "a.m4a" 0 2 1
                         eq_refl eq_refl eq_refl eq_refl eq_refl eq_refl
                         eq_refl eq_refl))).
Defined.

(** ** Playback *)

Lemma press_segment_step (w : world) (n : nat) (seg : segment) :
  nth_error (recordingSegments (st (memory w))) n = Some seg ->
  handle w (PressSegment n) = invoke (playSegment (st (memory w)) seg) w.
Proof. intros H. cbn [handle]. rewrite H. reflexivity. Qed.

(** [playSegment] on the segment that is playing. *)
Lemma playSegment_same (R : state) (seg : segment) (s : sound) :
  soundObject R = Some s ->
  playingSegmentId R = Some (id seg) ->
  playSegment R seg
  = try_catch
      (await (unloadAsync s) ;;
       write (setSoundObject None) ;;
       write (setPlayingSegmentId None))
      (write (show PlaybackError)).
Proof.
  intros H1 H2. unfold playSegment. rewrite H1, H2.
  unfold same_id. rewrite String.eqb_refl. reflexivity.
Qed.

(** [playSegment] on a segment while another one is playing. *)
Lemma playSegment_other (R : state) (seg : segment) (s : sound) (a : string) :
  soundObject R = Some s ->
  playingSegmentId R = Some a ->
  a <> id seg ->
  playSegment R seg
  = try_catch
      (await (unloadAsync s) ;;
       write (setSoundObject None) ;;
       (v <- await (createSound (uri seg)) ;;
        match v with
        | resolvedSound snd =>
            write (setSoundObject (Some snd)) ;;
            write (setPlayingSegmentId (Some (id seg))) ;;
            OnPlaybackStatus snd (onDidJustFinish snd) (Ret tt)
        | _ => Throw
        end))
      (write (show PlaybackError)).
Proof.
  intros H1 H2 Ha. unfold playSegment. rewrite H1, H2.
  unfold same_id. apply String.eqb_neq in Ha. rewrite Ha. reflexivity.
Qed.

(** Such a press writes nothing before its first await, so no clean-up
    follows it. *)
Lemma press_same_step (w : world) (n : nat) (seg : segment) (s : sound) :
  nth_error (recordingSegments (st (memory w))) n = Some seg ->
  soundObject (st (memory w)) = Some s ->
  playingSegmentId (st (memory w)) = Some (id seg) ->
  step w (PressSegment n)
  = invoke (try_catch
              (await (unloadAsync s) ;;
               write (setSoundObject None) ;;
               write (setPlayingSegmentId None))
              (write (show PlaybackError))) w.
Proof.
  intros Hn Hs Hp.
  rewrite step_calm;
    rewrite (@press_segment_step w n seg Hn), (@playSegment_same _ seg s Hs Hp);
    reflexivity.
Qed.

Lemma press_other_step (w : world) (n : nat) (seg : segment) (s : sound)
  (a : string) :
  nth_error (recordingSegments (st (memory w))) n = Some seg ->
  soundObject (st (memory w)) = Some s ->
  playingSegmentId (st (memory w)) = Some a -> a <> id seg ->
  step w (PressSegment n)
  = invoke (try_catch
              (await (unloadAsync s) ;;
               write (setSoundObject None) ;;
               (v <- await (createSound (uri seg)) ;;
                match v with
                | resolvedSound snd =>
                    write (setSoundObject (Some snd)) ;;
                    write (setPlayingSegmentId (Some (id seg))) ;;
                    OnPlaybackStatus snd (onDidJustFinish snd) (Ret tt)
                | _ => Throw
                end))
              (write (show PlaybackError))) w.
Proof.
  intros Hn Hs Hp Ha.
  rewrite step_calm;
    rewrite (@press_segment_step w n seg Hn),
      (@playSegment_other _ seg s a Hs Hp Ha);
    reflexivity.
Qed.

(** Normalise the lists of calls on both sides. *)
Ltac lists_done :=
  cbn [cleanup_calls rf recordingRef memory List.app List.rev map fst List.length];
  repeat rewrite <- app_assoc; cbn [List.app]; reflexivity.

(** C8. With a sound loaded: a press on the row of the segment that is
    playing unloads the sound and clears [playingSegmentId]; a press on
    another row unloads the sound first, then loads the pressed segment
    and sets [playingSegmentId] to its id.  The calls of [playSegment] are
    exactly these, in this order; each change of [soundObject] is
    followed by the calls of the effect clean-up, which nobody awaits and
    which are what is left pending. *)
Theorem playback_toggle (w : world) (n : nat) (seg : segment) (s : sound) :
  nth_error (recordingSegments (st (memory w))) n = Some seg ->
  soundObject (st (memory w)) = Some s ->
  (playingSegmentId (st (memory w)) = Some (id seg) ->
   let w' := run_events [PressSegment n; Settle 0 Completes] w in
   playingSegmentId (st (memory w')) = None
   /\ soundObject (st (memory w')) = None
   /\ calls w'
      = calls w ++ [unloadAsync s] ++ cleanup_calls (Some s) (memory w)
   /\ loadedSounds w'
      = filter (fun x => negb (Nat.eqb x (sid s))) (loadedSounds w)
   /\ map fst (pending w')
      = List.rev (cleanup_calls (Some s) (memory w)) ++ map fst (pending w))
  /\ (forall a, playingSegmentId (st (memory w)) = Some a -> a <> id seg ->
      let w' := run_events (replace_sound n Completes w) w in
      playingSegmentId (st (memory w')) = Some (id seg)
      /\ soundObject (st (memory w')) = Some (mkSound (nextSound w))
      /\ calls w'
         = calls w ++ [unloadAsync s; createSound (uri seg)]
           ++ cleanup_calls (Some s) (memory w)
           ++ cleanup_calls None (memory w)
      /\ loadedSounds w'
         = filter (fun x => negb (Nat.eqb x (sid s))) (loadedSounds w)
           ++ [nextSound w]
      /\ map fst (pending w')
         = List.rev (cleanup_calls None (memory w))
           ++ List.rev (cleanup_calls (Some s) (memory w))
           ++ map fst (pending w)).
Proof.
  intros Hn Hs. split.
  - intros Hp w'. unfold w', run_events. cbn [fold_left].
    rewrite (@press_same_step w n seg s Hn Hs Hp).
    open_world w. projections Hs. subst.
    rewrite step_changed by (lazy; reflexivity).
    destruct w_ref, w_ival, w_timer; crunch; splits; try reflexivity;
      lists_done.
  - intros a Hp Ha w'. unfold w', replace_sound, run_events. cbn [fold_left].
    rewrite (@press_other_step w n seg s a Hn Hs Hp Ha).
    open_world w. projections Hs. subst.
    rewrite (@step_changed _ (Settle 0 Completes)) by (lazy; reflexivity).
    destruct w_ref, w_ival, w_timer;
      cbn [cleanup_calls soundObject st rf recordingRef memory List.app
           List.length];
      rewrite step_changed by (lazy; reflexivity);
      crunch; splits; try reflexivity; lists_done.
Qed.

(** Two segments recorded, the first one playing. *)
Lemma playback_toggle_witness :
  let w := run_events (start_session (Some "a.m4a")
                       ++ five_seconds 7 (Some "b.m4a") ++ stop_session
                       ++ [PressSegment 0; Settle 0 Completes]) mounted in
  nth_error (recordingSegments (st (memory w))) 1 = Some (segment_of 1 7)
  /\ soundObject (st (memory w)) = Some (mkSound 0)
  /\ playingSegmentId (st (memory w)) = Some "segment_0_7"%string
  /\ "segment_0_7"%string <> id (segment_of 1 7)
  /\ playingSegmentId (st (memory (run_events (replace_sound 1 Completes w) w)))
     = Some (id (segment_of 1 7)).
Proof.
  intros w. repeat (split; [first [reflexivity | discriminate]|]).
  refine (proj1 (proj2 (@playback_toggle w 1 (segment_of 1 7) (mkSound 0)
                          eq_refl eq_refl) "segment_0_7"%string eq_refl _)).
  discriminate.
Defined.

(** A failed load with nothing loaded before leaves no trace but the call
    and the alert. *)
Lemma failed_first_play_is_clean (w : world) (n : nat) (seg : segment) :
  nth_error (recordingSegments (st (memory w))) n = Some seg ->
  soundObject (st (memory w)) = None ->
  run_events [PressSegment n; Settle 0 Rejects] w
  = on_memory (show PlaybackError) (issue (createSound (uri seg)) w).
Proof.
  intros Hn Hs. unfold run_events. cbn [fold_left].
  open_world w. projections Hs. subst.
  rewrite (@step_calm _ (PressSegment n))
    by (rewrite (@press_segment_step _ n seg Hn); lazy; reflexivity).
  rewrite (@press_segment_step _ n seg Hn).
  calm_runs. reflexivity.
Qed.

(** A failed load while another segment was playing: the old sound is gone
    and its id is still in [playingSegmentId]. *)
Lemma failed_replace_keeps_old_id (w : world) (n : nat) (seg : segment)
  (s : sound) (a : string) :
  nth_error (recordingSegments (st (memory w))) n = Some seg ->
  soundObject (st (memory w)) = Some s ->
  playingSegmentId (st (memory w)) = Some a -> a <> id seg ->
  let w' := run_events (replace_sound n Rejects w) w in
  playingSegmentId (st (memory w')) = Some a
  /\ soundObject (st (memory w')) = None
  /\ alerts (memory w') = alerts (memory w) ++ [PlaybackError].
Proof.
  intros Hn Hs Hp Ha w'. unfold w', replace_sound, run_events. cbn [fold_left].
  rewrite (@press_other_step w n seg s a Hn Hs Hp Ha).
  open_world w. projections Hs. projections Hp. subst.
  rewrite (@step_changed _ (Settle 0 Completes)) by (lazy; reflexivity).
  destruct w_ref, w_ival, w_timer;
    cbn [cleanup_calls soundObject st rf recordingRef memory List.app
         List.length];
    calm_runs; crunch; splits; reflexivity.
Qed.

(** C7. Two recorded segments, the first one playing, the second row
    pressed and its load rejected: the playback error is shown, the first
    sound is unloaded and no sound object is left, but [playingSegmentId]
    still holds the id of the first segment. *)
Theorem failed_replace_leaves_playing_id :
  let w := run_events replace_fails mounted in
  playingSegmentId (st (memory w)) = Some "segment_0_7"%string
  /\ soundObject (st (memory w)) = None
  /\ loadedSounds w = []
  /\ alerts (memory w) = [RecordingDone 2; PlaybackError].
Proof. repeat split. Qed.

(** * Further properties *)

(** ** Between events *)

(** The rules of [ends_in], one per construct of [Async], and its
    soundness for [run], [invoke] and [settle]: a world is [quiet] when its
    memory has [I] and everything that can still run in it (interval
    callbacks, status callbacks, suspended functions) keeps [I]. *)

Section Between_proofs.
Variable I : mem -> Prop.

Lemma ends_in_weaken (A : Type) (p : Async A) :
  forall (Qn Ql Qn' Ql' : A -> mem -> Prop) (En El Sn En' El' Sn' : mem -> Prop)
    (m : mem),
  (forall a m1, Qn a m1 -> Qn' a m1) -> (forall a m1, Ql a m1 -> Ql' a m1) ->
  (forall m1, En m1 -> En' m1) -> (forall m1, El m1 -> El' m1) ->
  (forall m1, Sn m1 -> Sn' m1) ->
  ends_in I p Qn Ql En El Sn m -> ends_in I p Qn' Ql' En' El' Sn' m.
Proof.
  induction p as [A a|A|A k IH|A f k IH|A c k IH|A q IHq k IHk
                 |A cb IHcb ms k IHk|A t k IH|A s cb IHcb k IHk];
    simpl; intros Qn Ql Qn' Ql' En El Sn En' El' Sn' m HQn HQl HEn HEl HSn Hp.
  - auto.
  - auto.
  - eapply IH; eauto.
  - eapply IH; eauto.
  - destruct Hp as [HS Hk]. split; [auto|].
    intros v m' Hm'. eapply IH; [| | | | |apply Hk, Hm']; auto.
  - eapply IHq; [| | | | |exact Hp]; simpl; auto.
    + intros _ m1. apply IHk; auto.
    + intros m1. apply IHk; auto.
    + intros m1. apply IHk; auto.
  - destruct Hp as [Hcb Hk]. split; [assumption|].
    intros t. eapply IHk; [| | | | |apply Hk]; auto.
  - eapply IH; eauto.
  - destruct Hp as [Hcb Hk]. split; [assumption|]. eapply IHk; eauto.
Qed.

Lemma ends_in_bind (A B : Type) (p : Async A) (f : A -> Async B) :
  forall (Qn Ql : B -> mem -> Prop) (En El Sn : mem -> Prop) (m : mem),
  ends_in I p (fun a m1 => ends_in I (f a) Qn Ql En El Sn m1)
    (fun a m1 => ends_in I (f a) Ql Ql El El I m1) En El Sn m ->
  ends_in I (bind p f) Qn Ql En El Sn m.
Proof.
  change (bind p f) with (Async_bind p f).
  induction p as [A a|A|A k IH|A g k IH|A c k IH|A q IHq k IHk
                 |A cb IHcb ms k IHk|A t k IH|A s cb IHcb k IHk];
    simpl; intros Qn Ql En El Sn m Hp.
  - assumption.
  - assumption.
  - apply IH, Hp.
  - apply IH, Hp.
  - destruct Hp as [HS Hk]. split; [assumption|].
    intros v m' Hm'. apply IH, Hk, Hm'.
  - eapply ends_in_weaken; [| | | | |exact Hp]; simpl; auto.
  - destruct Hp as [Hcb Hk]. split; [assumption|]. intros t. apply IHk, Hk.
  - apply IH, Hp.
  - destruct Hp as [Hcb Hk]. split; [assumption|]. apply IHk, Hk.
Qed.

Lemma ends_in_try_catch (A : Type) (p h : Async A) :
  forall (Qn Ql : A -> mem -> Prop) (En El Sn : mem -> Prop) (m : mem),
  ends_in I p Qn Ql (fun m1 => ends_in I h Qn Ql En El Sn m1)
    (fun m1 => ends_in I h Ql Ql El El I m1) Sn m ->
  ends_in I (try_catch p h) Qn Ql En El Sn m.
Proof.
  induction p as [A a|A|A k IH|A g k IH|A c k IH|A q IHq k IHk
                 |A cb IHcb ms k IHk|A t k IH|A s cb IHcb k IHk];
    simpl; intros Qn Ql En El Sn m Hp.
  - assumption.
  - assumption.
  - apply IH, Hp.
  - apply IH, Hp.
  - destruct Hp as [HS Hk]. split; [assumption|].
    intros v m' Hm'. apply IH, Hk, Hm'.
  - eapply ends_in_weaken; [| | | | |exact Hp]; simpl; auto.
  - destruct Hp as [Hcb Hk]. split; [assumption|]. intros t. apply IHk, Hk.
  - apply IH, Hp.
  - destruct Hp as [Hcb Hk]. split; [assumption|]. apply IHk, Hk.
Qed.

Lemma ends_in_write (f : mem -> mem) (Qn Ql : unit -> mem -> Prop)
  (En El Sn : mem -> Prop) (m : mem) :
  Qn tt (f m) -> ends_in I (write f) Qn Ql En El Sn m.
Proof. intros H. exact H. Qed.

Lemma ends_in_await (c : call) (Qn Ql : settled -> mem -> Prop)
  (En El Sn : mem -> Prop) (m : mem) :
  Sn m -> (forall v m', I m' -> Ql v m') -> (forall m', I m' -> El m') ->
  ends_in I (await c) Qn Ql En El Sn m.
Proof.
  intros HS HQ HE. split; [assumption|].
  intros v m' Hm'. destruct v; simpl; auto.
Qed.

Lemma ends_in_fork (q : Async unit) (Qn Ql : unit -> mem -> Prop)
  (En El Sn : mem -> Prop) (m : mem) :
  later_fine I q -> I m -> (forall m1, I m1 -> Qn tt m1) ->
  ends_in I (fork q) Qn Ql En El Sn m.
Proof.
  intros Hq Hm HQ. unfold fork. simpl.
  eapply ends_in_weaken; [| | | | |apply Hq, Hm]; simpl; auto.
Qed.

Lemma ends_in_call (A : Type) (p : Async A) (Qn Ql : A -> mem -> Prop)
  (En El Sn : mem -> Prop) (m : mem) :
  call_fine I p -> I m ->
  (forall a m1, I m1 -> Qn a m1) -> (forall a m1, I m1 -> Ql a m1) ->
  (forall m1, I m1 -> En m1) -> (forall m1, I m1 -> El m1) ->
  (forall m1, I m1 -> Sn m1) ->
  ends_in I p Qn Ql En El Sn m.
Proof. intros Hp. apply Hp. Qed.

Lemma ends_in_read (A : Type) (k : mem -> Async A) (Qn Ql : A -> mem -> Prop)
  (En El Sn : mem -> Prop) (m : mem) :
  ends_in I (k m) Qn Ql En El Sn m -> ends_in I (Read k) Qn Ql En El Sn m.
Proof. intros H. exact H. Qed.

Lemma ends_in_ret (A : Type) (a : A) (Qn Ql : A -> mem -> Prop)
  (En El Sn : mem -> Prop) (m : mem) :
  Qn a m -> ends_in I (ret a) Qn Ql En El Sn m.
Proof. intros H. exact H. Qed.

Lemma ends_in_throw (A : Type) (Qn Ql : A -> mem -> Prop)
  (En El Sn : mem -> Prop) (m : mem) :
  En m -> ends_in I (@Throw A) Qn Ql En El Sn m.
Proof. intros H. exact H. Qed.

Lemma ends_in_clear (A : Type) (t : nat) (k : Async A)
  (Qn Ql : A -> mem -> Prop) (En El Sn : mem -> Prop) (m : mem) :
  ends_in I k Qn Ql En El Sn m -> ends_in I (ClearInterval t k) Qn Ql En El Sn m.
Proof. intros H. exact H. Qed.

Lemma ends_in_interval (A : Type) (cb : Async unit) (ms : nat)
  (k : nat -> Async A) (Qn Ql : A -> mem -> Prop) (En El Sn : mem -> Prop)
  (m : mem) :
  later_fine I cb -> (forall t, ends_in I (k t) Qn Ql En El Sn m) ->
  ends_in I (SetInterval cb ms k) Qn Ql En El Sn m.
Proof. intros H1 H2. split; assumption. Qed.

Lemma ends_in_status (A : Type) (s : sound) (cb : Async unit) (k : Async A)
  (Qn Ql : A -> mem -> Prop) (En El Sn : mem -> Prop) (m : mem) :
  later_fine I cb -> ends_in I k Qn Ql En El Sn m ->
  ends_in I (OnPlaybackStatus s cb k) Qn Ql En El Sn m.
Proof. intros H1 H2. split; assumption. Qed.

Lemma later_fine_fork (q : Async unit) : later_fine I q -> later_fine I (fork q).
Proof. intros Hq m Hm. apply ends_in_fork; auto. Qed.

Lemma unawaited_call_fine (c : call) : later_fine I (await c ;; ret tt).
Proof.
  intros m Hm. apply ends_in_bind, ends_in_await; simpl; auto.
Qed.

Lemma call_fine_later (p : Async unit) : call_fine I p -> later_fine I p.
Proof. intros Hp m Hm. apply Hp; auto. Qed.

(** Soundness: what [ends_in] promises of [p] holds of [run p]. *)
Lemma run_ends_in (A : Type) (p : Async A) :
  forall (Qn Ql : A -> mem -> Prop) (En El Sn : mem -> Prop) (w : world),
  ends_in I p Qn Ql En El Sn (memory w) ->
  Forall (fun e => later_fine I (snd e)) (intervals w) ->
  Forall (fun e => later_fine I (snd e)) (listeners w) ->
  Forall (fun e => forall v, later_fine I (snd e v)) (pending w) ->
  Forall (fun e => later_fine I (snd e)) (intervals (fst (run p w)))
  /\ Forall (fun e => later_fine I (snd e)) (listeners (fst (run p w)))
  /\ Forall (fun e => forall v, later_fine I (snd e v)) (pending (fst (run p w)))
  /\ match snd (run p w) with
     | Returned a => Qn a (memory (fst (run p w)))
     | Thrown => En (memory (fst (run p w)))
     | Awaiting _ k =>
         Sn (memory (fst (run p w)))
         /\ forall v m', I m' -> ends_in I (k v) Ql Ql El El I m'
     end.
Proof.
  induction p as [A a|A|A k IH|A f k IH|A c k IH|A q IHq k IHk
                 |A cb IHcb ms k IHk|A t k IH|A s cb IHcb k IHk];
    simpl; intros Qn Ql En El Sn w Hp Hi Hl Hpd.
  - auto.
  - auto.
  - apply IH; auto.
  - apply (IH Qn Ql En El Sn (on_memory f w)); auto.
  - destruct Hp as [HP Hk]. repeat split; auto.
  - destruct (IHq _ _ _ _ _ w Hp Hi Hl Hpd) as (Hi1 & Hl1 & Hpd1 & Ho).
    destruct (run q w) as [w1 o]; simpl in *.
    destruct o as [a| |c k']; simpl.
    + apply IHk; auto.
    + apply IHk; auto.
    + destruct Ho as [HG Hk']. apply IHk; simpl; auto.
  - destruct Hp as [Hcb Hk].
    apply (IHk (nextTimer w) Qn Ql En El Sn (add_interval cb ms w)); simpl; auto.
  - apply (IH Qn Ql En El Sn (remove_interval t w)); simpl;
      auto using Forall_filter_keep.
  - destruct Hp as [Hcb Hk].
    apply (IHk Qn Ql En El Sn (set_listener s cb w)); simpl;
      auto using Forall_filter_keep.
Qed.

Lemma invoke_quiet (p : Async unit) (w : world) :
  later_fine I p -> quiet I w -> quiet I (invoke p w).
Proof.
  intros Hp (Hm & Hi & Hl & Hpd). unfold invoke.
  destruct (run_ends_in p _ _ _ _ _ w (Hp _ Hm) Hi Hl Hpd) as (H2 & H3 & H4 & H5).
  destruct (run p w) as [w1 o]; simpl in *.
  destruct o as [a| |c k]; unfold quiet; simpl; auto.
  destruct H5 as [H5 Hk]. repeat split; auto.
Qed.

Lemma settle_quiet (i : nat) (r : reply) (w : world) :
  quiet I w -> quiet I (settle i r w).
Proof.
  intros Hw. unfold settle.
  destruct (nth_error (pending w) i) as [[c k]|] eqn:Hi; [|assumption].
  destruct (deliver c r _) as [[w1 v]|] eqn:Hd; [|assumption].
  destruct Hw as (Hm & Hiv & Hl & Hpd).
  assert (Hk : forall v, later_fine I (k v))
    by exact (Forall_nth_error_some Hpd i Hi).
  apply invoke_quiet; [apply Hk|].
  assert (Hw' : quiet I (set_pending (remove_nth i (pending w)) w))
    by (unfold quiet; simpl; auto using Forall_remove_nth).
  revert Hd Hw'. generalize (set_pending (remove_nth i (pending w)) w).
  intros w0 Hd (Hm0 & Hiv0 & Hl0 & Hpd0).
  destruct c, r; simpl in Hd; inversion Hd; subst; unfold quiet; simpl; auto.
Qed.

Hypothesis clock_fine : forall t m, I m -> I (set_now t m).
Hypothesis button_fine : forall R, later_fine I (handleRecordButtonPress R).
Hypothesis row_fine : forall R seg, later_fine I (playSegment R seg).
Hypothesis effect_fine : forall R, later_fine I (cleanup R).

Lemma handle_quiet (e : event) (w : world) : quiet I w -> quiet I (handle w e).
Proof.
  intros Hw. destruct e as [|n|i|i r|s|t]; simpl.
  - apply invoke_quiet; auto.
  - destruct (nth_error _ n); [apply invoke_quiet|]; auto.
  - destruct (nth_error (intervals w) i) as [[[t ms] cb]|] eqn:Hi; [|assumption].
    apply invoke_quiet; [|assumption].
    destruct Hw as (_ & Hiv & _ & _).
    exact (Forall_nth_error_some Hiv i Hi).
  - apply settle_quiet; assumption.
  - destruct (existsb _ _); [|assumption].
    destruct (find _ (listeners w)) as [[s' cb]|] eqn:Hf; [|assumption].
    apply invoke_quiet; [|assumption].
    destruct Hw as (_ & _ & Hl & _).
    rewrite Forall_forall in Hl.
    apply find_some in Hf. exact (Hl _ (proj1 Hf)).
  - destruct Hw as (Hm & Hiv & Hl & Hpd). unfold quiet; simpl; auto.
Qed.

Lemma step_quiet (e : event) (w : world) : quiet I w -> quiet I (step w e).
Proof.
  intros Hw. unfold step.
  destruct (same_sound _ _); [|apply invoke_quiet; [apply effect_fine|]];
    apply handle_quiet, Hw.
Qed.

Lemma run_events_quiet (es : list event) :
  forall w, quiet I w -> quiet I (run_events es w).
Proof.
  unfold run_events.
  induction es as [|e es IH]; simpl; intros w Hw; [assumption|].
  apply IH, step_quiet, Hw.
Qed.

End Between_proofs.

(** The component's functions, one by one. *)

Create HintDb fine.
#[local] Hint Resolve later_fine_fork unawaited_call_fine : fine.

Ltac coherent_done :=
  unfold coherent in *;
  repeat match goal with H : _ /\ _ |- _ => destruct H end;
  repeat match goal with
         | H : isRecording _ = _ |- _ => progress cbn in H
         | H : _ <-> _ |- _ => progress cbn in H
         | H : playingSegmentId _ = None -> _ |- _ => progress cbn in H
         end;
  cbn;
  repeat match goal with
         | |- _ /\ _ => split
         | |- _ <-> _ => split
         end;
  intros; first [ assumption | reflexivity | discriminate | congruence | tauto ].

Ltac fine_step :=
  cbv beta zeta;
  match goal with
  | |- later_fine _ _ => intros ? ?
  | |- call_fine _ _ => intros ? ? ? ? ? ? ? ? ? ? ? ?
  | |- forall _, _ => intro
  | |- ends_in _ (bind _ _) _ _ _ _ _ _ => apply ends_in_bind
  | |- ends_in _ (try_catch _ _) _ _ _ _ _ _ => apply ends_in_try_catch
  | |- ends_in _ (write _) _ _ _ _ _ _ => apply ends_in_write
  | |- ends_in _ (await _) _ _ _ _ _ _ => apply ends_in_await
  | |- ends_in _ (fork _) _ _ _ _ _ _ =>
      apply ends_in_fork; [solve [auto with fine] | |]
  | |- ends_in _ (Read _) _ _ _ _ _ _ => apply ends_in_read
  | |- ends_in _ (ret _) _ _ _ _ _ _ => apply ends_in_ret
  | |- ends_in _ (Ret _) _ _ _ _ _ _ => apply ends_in_ret
  | |- ends_in _ Throw _ _ _ _ _ _ => apply ends_in_throw
  | |- ends_in _ (ClearInterval _ _) _ _ _ _ _ _ => apply ends_in_clear
  | |- ends_in _ (SetInterval _ _ _) _ _ _ _ _ _ =>
      apply ends_in_interval; [solve [auto with fine] |]
  | |- ends_in _ (OnPlaybackStatus _ _ _) _ _ _ _ _ _ =>
      apply ends_in_status; [solve [auto with fine] |]
  | |- ends_in _ (match ?x with _ => _ end) _ _ _ _ _ _ => destruct x
  | |- ends_in _ _ _ _ _ _ _ _ =>
      apply ends_in_call; [solve [auto with fine] | | | | | |]
  | |- coherent _ => coherent_done
  | H : forall a m1, coherent m1 -> ?Q a m1 |- ?Q _ _ => apply H
  | H : forall m1, coherent m1 -> ?Q m1 |- ?Q _ => apply H
  end.

Ltac fine := repeat fine_step.

Lemma saveCurrentSegment_fine (R : state) :
  call_fine coherent (saveCurrentSegment R).
Proof. unfold saveCurrentSegment. fine. Qed.

#[local] Hint Resolve saveCurrentSegment_fine : fine.

Lemma stopRecording_fine (R : state) : later_fine coherent (stopRecording R).
Proof. unfold stopRecording, clearIntervalOf. fine. Qed.

#[local] Hint Resolve stopRecording_fine : fine.

Lemma startNewSegment_fine (R : state) :
  call_fine coherent (startNewSegment R).
Proof. unfold startNewSegment. fine. Qed.

#[local] Hint Resolve startNewSegment_fine : fine.

Lemma handleSegmentSplit_fine (R : state) :
  later_fine coherent (handleSegmentSplit R).
Proof. unfold handleSegmentSplit. fine. Qed.

Lemma everySecond_fine : later_fine coherent everySecond.
Proof. unfold everySecond. fine. Qed.

#[local] Hint Resolve handleSegmentSplit_fine everySecond_fine : fine.

Lemma startRecording_fine (R : state) :
  later_fine coherent (startRecording R).
Proof. unfold startRecording. fine. Qed.

#[local] Hint Resolve startRecording_fine : fine.

Lemma handleRecordButtonPress_fine (R : state) :
  later_fine coherent (handleRecordButtonPress R).
Proof. unfold handleRecordButtonPress. fine. Qed.

Lemma onDidJustFinish_fine (s : sound) : later_fine coherent (onDidJustFinish s).
Proof. unfold onDidJustFinish. fine. Qed.

#[local] Hint Resolve onDidJustFinish_fine : fine.

Lemma playSegment_fine (R : state) (seg : segment) :
  later_fine coherent (playSegment R seg).
Proof. unfold playSegment. fine. Qed.

Lemma cleanup_fine (R : state) : later_fine coherent (cleanup R).
Proof. unfold cleanup, clearIntervalOf. fine. Qed.

(** X1. In every world the mounted component can get to, by any events
    and any runs of the effect clean-up, in any interleaving and whatever
    the native calls answer: [isRecording] and [isRecordingRef.current]
    agree, the two interval refs are both set or both null, and a sound
    object is held only while some row is marked as playing.  This is so
    whenever the component waits for its next event; inside a function it
    can fail for a moment. *)
Theorem coherent_between_events (os : list occurrence) :
  let m := memory (fold_left occur os mounted) in
  isRecording (st m) = isRecordingRef (rf m)
  /\ (intervalRef (rf m) = None <-> timerRef (rf m) = None)
  /\ (playingSegmentId (st m) = None -> soundObject (st m) = None).
Proof.
  assert (H : forall w, quiet coherent w -> quiet coherent (fold_left occur os w)).
  { induction os as [|o os IH]; simpl; intros w Hw; [assumption|].
    apply IH. destruct o as [e|R]; simpl.
    - apply step_quiet;
        auto using handleRecordButtonPress_fine, playSegment_fine,
          cleanup_fine.
    - apply invoke_quiet; [apply cleanup_fine | assumption]. }
  apply (H mounted).
  unfold quiet, mounted, coherent; simpl. repeat split; auto.
Qed.

(** ** Rejections *)

(** [catches] is sound for [drive_from]: a function that catches never
    ends in [Thrown]. *)

Lemma catches_bind (A B : Type) (p : Async A) (f : A -> Async B) :
  catches p -> (forall a, catches (f a)) -> catches (bind p f).
Proof.
  revert B f.
  induction p as [A a|A|A k IH|A f k IH|A c k IH|A q IHq k IHk
                 |A cb IHcb ms k IHk|A t k IH|A s cb IHcb k IHk]; simpl; intros B g Hp Hg; auto.
Qed.

Lemma catches_try_catch (A : Type) (p h : Async A) :
  catches h -> catches (try_catch p h).
Proof.
  revert h.
  induction p as [A a|A|A k IH|A f k IH|A c k IH|A q IHq k IHk
                 |A cb IHcb ms k IHk|A t k IH|A s cb IHcb k IHk]; simpl; intros h Hh; auto.
Qed.

Lemma timeout_answer (ms : nat) (v : settled) :
  answers (timeout ms) v -> v = resolved.
Proof.
  intros (r & w & w1 & H). destruct r; simpl in H; congruence.
Qed.

Lemma catches_timeout (ms : nat) : catches (await (timeout ms)).
Proof.
  simpl. intros v Hv. rewrite (timeout_answer Hv). exact Logic.I.
Qed.

Lemma run_catches (A : Type) (p : Async A) :
  forall w, catches p ->
  match snd (run p w) with
  | Returned _ => True
  | Thrown => False
  | Awaiting c k => forall v, answers c v -> catches (k v)
  end.
Proof.
  induction p as [A a|A|A k IH|A f k IH|A c k IH|A q IHq k IHk
                 |A cb IHcb ms k IHk|A t k IH|A s cb IHcb k IHk]; simpl; intros w Hp; auto;
    try (destruct (run q w) as [w1 o]); first [apply IH | apply IHk]; auto.
Qed.

Lemma drive_catches (A : Type) (rs : list reply) :
  forall (w : world) (o : outcome A),
  match o with
  | Returned _ => True
  | Thrown => False
  | Awaiting c k => forall v, answers c v -> catches (k v)
  end ->
  rejects (snd (drive rs w o)) = false.
Proof.
  induction rs as [|r rs IH]; intros w o Ho.
  - destruct o; simpl; auto. contradiction.
  - destruct o as [a| |c k]; simpl; auto; [contradiction|].
    destruct (deliver c r w) as [[w1 v]|] eqn:Hd; [|reflexivity].
    assert (Hv : answers c v) by (exists r, w, w1; exact Hd).
    pose proof (run_catches (k v) w1 (Ho v Hv)) as Hr.
    destruct (run (k v) w1) as [w2 o2]. apply IH, Hr.
Qed.

Lemma drive_from_catches (A : Type) (p : Async A) (rs : list reply) (w : world) :
  catches p -> rejects (snd (drive_from rs p w)) = false.
Proof.
  intros Hp. unfold drive_from.
  pose proof (run_catches p w Hp) as Hr.
  destruct (run p w) as [w1 o]. apply drive_catches, Hr.
Qed.

Ltac caught_step :=
  match goal with
  | |- catches (try_catch _ _) => apply catches_try_catch
  | |- catches (bind _ _) => apply catches_bind
  | |- catches (await (timeout _)) => apply catches_timeout
  | |- catches (Read _) => intro
  | |- catches (if ?b then _ else _) => destruct b
  | |- catches (match ?x with _ => _ end) => destruct x
  | |- catches (write _) => exact Logic.I
  | |- catches (ret _) => exact Logic.I
  | |- catches (fork _) => exact Logic.I
  | |- catches (Ret _) => exact Logic.I
  | |- forall _, _ => intro
  end.

Lemma saveCurrentSegment_catches (R : state) : catches (saveCurrentSegment R).
Proof. unfold saveCurrentSegment. repeat caught_step. Qed.

Lemma startNewSegment_catches (R : state) : catches (startNewSegment R).
Proof. unfold startNewSegment. repeat caught_step. Qed.

Lemma handleSegmentSplit_catches (R : state) : catches (handleSegmentSplit R).
Proof.
  unfold handleSegmentSplit. repeat caught_step;
    first [apply saveCurrentSegment_catches | apply startNewSegment_catches].
Qed.

Lemma startRecording_catches (R : state) : catches (startRecording R).
Proof. unfold startRecording. repeat caught_step. Qed.

Lemma playSegment_catches (R : state) (seg : segment) : catches (playSegment R seg).
Proof. unfold playSegment. repeat caught_step. Qed.

(** X2. The promises of [startRecording], [startNewSegment],
    [saveCurrentSegment], [handleSegmentSplit] and [playSegment] never
    reject: started in any render and any world, their awaited calls
    answered in any way, rejections included, none of them ends with an
    exception.  Four of them catch everything in a [try]; the fifth awaits
    only such functions and a timeout. *)
Theorem rejections_are_caught (R : state) (seg : segment) (rs : list reply)
  (w : world) :
  rejects (snd (drive_from rs (startRecording R) w)) = false
  /\ rejects (snd (drive_from rs (startNewSegment R) w)) = false
  /\ rejects (snd (drive_from rs (saveCurrentSegment R) w)) = false
  /\ rejects (snd (drive_from rs (handleSegmentSplit R) w)) = false
  /\ rejects (snd (drive_from rs (playSegment R seg) w)) = false.
Proof.
  repeat split; apply drive_from_catches;
    auto using saveCurrentSegment_catches, startNewSegment_catches,
      handleSegmentSplit_catches, startRecording_catches, playSegment_catches.
Qed.


(** ** Saving and rotating *)

(** X3. [saveCurrentSegment] on the recording of [recordingRef], its
    calls succeeding or not as [ok1] (stop), [ok2] (audio mode) and [ok3]
    (move) say: it returns the new segment exactly when the three calls
    succeed and the recording has a file, and null otherwise; the counter
    goes up by one exactly when a segment is returned; the recording is
    cleared from state and ref in every case; the list and the alerts are
    not touched; after the first failure no further call is made, and
    without a file nothing is moved. *)
Theorem saveCurrentSegment_outcomes (R : state) (w : world)
  (h : recordingHandle) (ok1 ok2 ok3 : bool) :
  recordingRef (rf (memory w)) = Some h ->
  let has := has_uri (huri h) in
  let saved := ok1 && ok2 && has && ok3 in
  let count := segmentCountRef (rf (memory w)) in
  let t := now (memory w) in
  exists w',
    drive_from (firstn (save_calls ok1 ok2 has)
                  [reply_of ok1; reply_of ok2; reply_of ok3])
      (saveCurrentSegment R) w
    = (w', Returned (if saved then Some (segment_of count t) else None))
    /\ recording (st (memory w')) = None
    /\ recordingRef (rf (memory w')) = None
    /\ segmentCountRef (rf (memory w')) = count + (if saved then 1 else 0)
    /\ recordingSegments (st (memory w')) = recordingSegments (st (memory w))
    /\ alerts (memory w') = alerts (memory w)
    /\ calls w'
       = calls w
         ++ firstn (save_calls ok1 ok2 has)
              [stopAndUnloadAsync h; setAudioModeAsync false;
               moveAsync (uri_of h)
                 (documentDirectory ++ fileName_of count t)]
    /\ openRecordings w'
       = (if ok1
          then filter (fun x => negb (Nat.eqb x (hid h))) (openRecordings w)
          else openRecordings w).
Proof.
  intros Href has saved count t. unfold has, saved, count, t.
  open_world w. projections Href. subst.
  destruct R as [r0 ? ? ? ? ? ?].
  destruct h as [i [[|c s]|]], r0, ok1, ok2, ok3; crunch;
    eexists; splits; try reflexivity; try lia;
    repeat rewrite <- app_assoc; reflexivity.
Qed.

Lemma saveCurrentSegment_outcomes_witness :
  let w := run_events (start_session (Some "a.m4a")) mounted in
  recordingRef (rf (memory w)) = Some (mkHandle 0 (Some "a.m4a"))
  /\ exists w',
       drive_from [Completes; Completes; Rejects]
         (saveCurrentSegment (st (memory w))) w = (w', Returned None)
       /\ segmentCountRef (rf (memory w')) = 0.
Proof.
  intros w. split; [reflexivity|].
  destruct (@saveCurrentSegment_outcomes (st (memory w)) w
              (mkHandle 0 (Some "a.m4a")) true true false eq_refl)
    as (w' & H1 & _ & _ & H4 & _).
  exists w'. split; [exact H1 | exact H4].
Defined.

(** X9. Stop whose audio-mode reset of line 102 rejects.  The call is
    outside every [try], so the promise of [stopRecording] rejects; the
    last segment has been saved and listed by then, but no summary is
    shown and the counter is not reset. *)
Theorem stop_without_summary (w : world) (h : recordingHandle) :
  isRecording (st (memory w)) = true ->
  recording (st (memory w)) = Some h ->
  recordingRef (rf (memory w)) = Some h ->
  has_uri (huri h) = true ->
  let w' := run_events [PressRecord; Settle 0 Completes; Settle 0 Completes;
                        Settle 0 Completes; Settle 0 Rejects] w in
  rejects (snd (drive_from [Completes; Completes; Completes; Rejects]
                  (stopRecording (st (memory w))) w)) = true
  /\ recordingSegments (st (memory w'))
     = recordingSegments (st (memory w))
       ++ [segment_of (segmentCountRef (rf (memory w))) (now (memory w))]
  /\ alerts (memory w') = alerts (memory w)
  /\ segmentCountRef (rf (memory w')) = segmentCountRef (rf (memory w)) + 1
  /\ isRecording (st (memory w')) = false
  /\ isRecordingRef (rf (memory w')) = false
  /\ recording (st (memory w')) = None
  /\ recordingRef (rf (memory w')) = None
  /\ pending w' = pending w.
Proof.
  intros H1 H2 H3 H4 w'. unfold w'. open_world w.
  projections H1; projections H2; projections H3. subst.
  destruct h as [i [[|c s]|]]; try discriminate.
  destruct w_ival, w_timer; calm_runs; crunch; splits; reflexivity.
Qed.

Lemma stop_without_summary_witness :
  let w := run_events (start_session (Some "a.m4a")) mounted in
  isRecording (st (memory w)) = true
  /\ recording (st (memory w)) = Some (mkHandle 0 (Some "a.m4a"))
  /\ recordingRef (rf (memory w)) = Some (mkHandle 0 (Some "a.m4a"))
  /\ has_uri (Some "a.m4a") = true
  /\ alerts (memory (run_events [PressRecord; Settle 0 Completes;
                                 Settle 0 Completes; Settle 0 Completes;
                                 Settle 0 Rejects] w)) = [].
Proof.
  intros w. repeat (split; [reflexivity|]).
  exact (proj1 (proj2 (proj2 (@stop_without_summary w
                                (mkHandle 0 (Some "a.m4a"))
                                eq_refl eq_refl eq_refl eq_refl)))).
Defined.

(** X10. A start whose permission request ([asked = false]) or whose
    audio-mode call of line 42 rejects: the start error of line 65 is
    shown and nothing else changes; no interval is started, no recording
    is opened and nothing is left suspended. *)
Theorem start_failure_rolls_back (w : world) (asked : bool) :
  isRecording (st (memory w)) = false ->
  isRecordingRef (rf (memory w)) = false ->
  let es := if asked
            then [PressRecord; Settle 0 (Grants granted); Settle 0 Rejects]
            else [PressRecord; Settle 0 Rejects] in
  let w' := run_events es w in
  memory w' = show StartError (memory w)
  /\ intervals w' = intervals w
  /\ openRecordings w' = openRecordings w
  /\ nextRecording w' = nextRecording w
  /\ pending w' = pending w
  /\ calls w'
     = calls w ++ requestPermissionsAsync
                  :: (if asked then [setAudioModeAsync true] else []).
Proof.
  intros H1 H2 es w'. unfold w', es. open_world w.
  projections H1. projections H2. subst.
  destruct asked; calm_runs; crunch; splits; try reflexivity;
    repeat rewrite <- app_assoc; reflexivity.
Qed.

Lemma start_failure_rolls_back_witness :
  isRecording (st (memory mounted)) = false
  /\ isRecordingRef (rf (memory mounted)) = false
  /\ memory (run_events [PressRecord; Settle 0 Rejects] mounted)
     = show StartError (memory mounted).
Proof.
  repeat (split; [reflexivity|]).
  exact (proj1 (@start_failure_rolls_back mounted false eq_refl eq_refl)).
Defined.

(** X5. In a session whose closure holds no recording ([recording] was
    null in the render the session was started in): while a rotation is
    under way, from its tick up to its pending [createAsync] with [j <= 5]
    of its calls settled, a further tick of the five-second interval
    changes nothing: [saveCurrentSegment] cleared the ref before its first
    await and the closure's [recording] is null, so the guard of line 192
    sends the second call back.  (With a recording in the closure the guard
    lets it pass, see X8.) *)
Theorem overlapping_tick_is_ignored (w : world) (R : state)
  (h : recordingHandle) (ti : nat) (rest : list (nat * nat * Async unit))
  (j : nat) :
  recording R = None ->
  isRecordingRef (rf (memory w)) = true ->
  recordingRef (rf (memory w)) = Some h ->
  intervals w = (ti, 5000, fork (handleSegmentSplit R)) :: rest ->
  j <= 5 ->
  let wj := run_events (Tick 0 :: repeat (Settle 0 Completes) j) w in
  step wj (Tick 0) = wj.
Proof.
  intros HR Hon Href Hiv Hj wj. unfold wj. open_world w.
  projections Hon; projections Href; projections Hiv. subst.
  destruct R as [r0 ? ? ? ? ? ?]. projections HR. subst r0.
  destruct h as [i [[|c s]|]];
    do 6 (destruct j as [|j];
          [cbn [repeat]; calm_runs; crunch; reflexivity|]); lia.
Qed.

Lemma overlapping_tick_is_ignored_witness :
  let w := run_events (start_session (Some "a.m4a")) mounted in
  let w3 := run_events (Tick 0 :: repeat (Settle 0 Completes) 3) w in
  recording initial_state = None
  /\ isRecordingRef (rf (memory w)) = true
  /\ recordingRef (rf (memory w)) = Some (mkHandle 0 (Some "a.m4a"))
  /\ 3 <= 5
  /\ step w3 (Tick 0) = w3.
Proof.
  intros w w3. repeat (split; [reflexivity|]). split; [lia|].
  exact (@overlapping_tick_is_ignored w initial_state
           (mkHandle 0 (Some "a.m4a")) 2 [(1, 1000, everySecond)] 3
           eq_refl eq_refl eq_refl eq_refl
           (le_S _ _ (le_S _ _ (le_n 3)))).
Defined.

(** X6. Stop pressed while a rotation is saving, [j <= 3] of the
    rotation's calls (stop, audio mode, move) settled.  The rotation still
    appends its segment, exactly once; stop itself saves nothing; nothing
    is reopened, the recording is closed, both intervals are cleared.  But
    the summary is shown before the rotation appends ([j < 3]) and then
    misses that segment, the counter reset of line 107 comes before the
    rotation's increment and leaves the counter at 1, and the segment is
    named with count 0 where the reset came before the name was built. *)
Theorem stop_during_rotation_saves_once (w : world) (R0 : state)
  (h : recordingHandle) (ti ts : nat) (rest : list (nat * nat * Async unit))
  (j : nat) :
  recording R0 = None ->
  isRecording (st (memory w)) = true ->
  isRecordingRef (rf (memory w)) = true ->
  recording (st (memory w)) = Some h ->
  recordingRef (rf (memory w)) = Some h ->
  has_uri (huri h) = true ->
  intervalRef (rf (memory w)) = Some ti ->
  timerRef (rf (memory w)) = Some ts ->
  intervals w = (ti, 5000, fork (handleSegmentSplit R0))
                :: (ts, 1000, everySecond) :: rest ->
  j <= 3 ->
  let w' := run_events (stop_during_rotation j) w in
  let k := segmentCountRef (rf (memory w)) in
  let t := now (memory w) in
  let old := recordingSegments (st (memory w)) in
  let named := if Nat.ltb j 2 then 0 else k in
  recordingSegments (st (memory w'))
  = old ++ [mkSegment (id_of (if Nat.ltb j 3 then 0 else k) t)
              (documentDirectory ++ fileName_of named t)
              (fileName_of named t) t]
  /\ alerts (memory w')
     = alerts (memory w)
       ++ [RecordingDone (List.length old + (if Nat.ltb j 3 then 0 else 1))]
  /\ segmentCountRef (rf (memory w')) = (if Nat.ltb j 3 then 1 else 0)
  /\ isRecording (st (memory w')) = false
  /\ isRecordingRef (rf (memory w')) = false
  /\ recording (st (memory w')) = None
  /\ recordingRef (rf (memory w')) = None
  /\ nextRecording w' = nextRecording w
  /\ openRecordings w'
     = filter (fun x => negb (Nat.eqb x (hid h))) (openRecordings w)
  /\ (forall e, In e (intervals w') -> fst (fst e) <> ti /\ fst (fst e) <> ts)
  /\ pending w' = pending w.
Proof.
  intros HR H1 H2 H3 H4 H5 H6 H7 Hiv Hj w' k t old named.
  unfold w', k, t, old, named. open_world w.
  projections H1; projections H2; projections H3; projections H4;
    projections H6; projections H7; projections Hiv. subst.
  destruct R0 as [r0 ? ? ? ? ? ?]. projections HR. subst r0.
  destruct h as [i [[|c s]|]]; try discriminate.
  unfold stop_during_rotation.
  do 4 (destruct j as [|j];
        [cbn [repeat Nat.sub List.app]; calm_runs; crunch; splits;
         try reflexivity;
         try (rewrite Nat.add_0_r; reflexivity);
         try (rewrite length_app; reflexivity);
         intros e; apply not_in_filtered|]).
  lia.
Qed.

Lemma stop_during_rotation_saves_once_witness :
  let w := run_events (start_session (Some "a.m4a")
                       ++ five_seconds 7 (Some "b.m4a") ++ [Clock 9])
             mounted in
  recording initial_state = None
  /\ isRecording (st (memory w)) = true
  /\ isRecordingRef (rf (memory w)) = true
  /\ recording (st (memory w)) = Some (mkHandle 1 (Some "b.m4a"))
  /\ recordingRef (rf (memory w)) = Some (mkHandle 1 (Some "b.m4a"))
  /\ has_uri (Some "b.m4a") = true
  /\ intervalRef (rf (memory w)) = Some 2
  /\ timerRef (rf (memory w)) = Some 1
  /\ intervals w = [(2, 5000, fork (handleSegmentSplit initial_state));
                    (1, 1000, everySecond)]
  /\ 2 <= 3
  /\ map (fun s => (id s, fileName s))
       (recordingSegments (st (memory (run_events (stop_during_rotation 2) w))))
     = [("segment_0_7", "recording_0_7.m4a");
        ("segment_0_9", "recording_1_9.m4a")].
Proof.
  intros w. repeat (split; [reflexivity|]). split; [lia|].
  rewrite (proj1 (@stop_during_rotation_saves_once w initial_state
                    (mkHandle 1 (Some "b.m4a")) 2 1 [] 2
                    eq_refl eq_refl eq_refl eq_refl eq_refl eq_refl eq_refl
                    eq_refl eq_refl (le_S _ _ (le_n 2)))).
  reflexivity.
Defined.

(** X7. Stop pressed while the rotation's [createAsync] is pending: stop
    completes, [isRecording] is false and the intervals are cleared, and
    then the recording opens and is stored in state and ref, open on the
    native side while the component is not recording.  The next start
    finds it at the guard of line 113 and opens none of its own. *)
Theorem stop_during_reopen_leaves_recording (w : world) (R0 : state)
  (h : recordingHandle) (u : option string) (ti ts : nat)
  (rest : list (nat * nat * Async unit)) :
  recording R0 = None ->
  isRecording (st (memory w)) = true ->
  isRecordingRef (rf (memory w)) = true ->
  recording (st (memory w)) = Some h ->
  recordingRef (rf (memory w)) = Some h ->
  has_uri (huri h) = true ->
  intervalRef (rf (memory w)) = Some ti ->
  timerRef (rf (memory w)) = Some ts ->
  intervals w = (ti, 5000, fork (handleSegmentSplit R0))
                :: (ts, 1000, everySecond) :: rest ->
  let w1 := run_events (stop_during_reopen u) w in
  let w2 := run_events [PressRecord; Settle 0 (Grants granted);
                        Settle 0 Completes] w1 in
  let kept := mkHandle (nextRecording w) u in
  (isRecording (st (memory w1)) = false
   /\ isRecordingRef (rf (memory w1)) = false
   /\ intervalRef (rf (memory w1)) = None
   /\ timerRef (rf (memory w1)) = None
   /\ recording (st (memory w1)) = Some kept
   /\ recordingRef (rf (memory w1)) = Some kept
   /\ In (hid kept) (openRecordings w1)
   /\ alerts (memory w1)
      = alerts (memory w)
        ++ [RecordingDone (List.length (recordingSegments (st (memory w))) + 1)]
   /\ pending w1 = pending w)
  /\ (isRecording (st (memory w2)) = true
      /\ recording (st (memory w2)) = Some kept
      /\ recordingRef (rf (memory w2)) = Some kept
      /\ nextRecording w2 = nextRecording w1
      /\ calls w2 = calls w1 ++ [requestPermissionsAsync; setAudioModeAsync true]
      /\ pending w2 = pending w).
Proof.
  intros HR H1 H2 H3 H4 H5 H6 H7 Hiv w1 w2 kept.
  unfold w2, w1, kept. open_world w.
  projections H1; projections H2; projections H3; projections H4;
    projections H6; projections H7; projections Hiv. subst.
  destruct R0 as [r0 ? ? ? ? ? ?]. projections HR. subst r0.
  destruct h as [i [[|c s]|]]; try discriminate.
  unfold stop_during_reopen. cbn [repeat List.app]. calm_runs.
  split; splits; crunch; try reflexivity.
  - apply in_or_app. right. left. reflexivity.
  - rewrite length_app. reflexivity.
  - rewrite <- app_assoc. reflexivity.
Qed.

Lemma stop_during_reopen_leaves_recording_witness :
  let w := run_events (start_session (Some "a.m4a")) mounted in
  let w1 := run_events (stop_during_reopen (Some "b.m4a")) w in
  recording initial_state = None
  /\ isRecording (st (memory w)) = true
  /\ isRecordingRef (rf (memory w)) = true
  /\ recording (st (memory w)) = Some (mkHandle 0 (Some "a.m4a"))
  /\ recordingRef (rf (memory w)) = Some (mkHandle 0 (Some "a.m4a"))
  /\ has_uri (Some "a.m4a") = true
  /\ intervalRef (rf (memory w)) = Some 2
  /\ timerRef (rf (memory w)) = Some 1
  /\ intervals w = [(2, 5000, fork (handleSegmentSplit initial_state));
                    (1, 1000, everySecond)]
  /\ isRecording (st (memory w1)) = false
  /\ recordingRef (rf (memory w1)) = Some (mkHandle 1 (Some "b.m4a")).
Proof.
  intros w w1. do 9 (split; [reflexivity|]).
  pose proof (@stop_during_reopen_leaves_recording w initial_state
                (mkHandle 0 (Some "a.m4a")) (Some "b.m4a") 2 1 []
                eq_refl eq_refl eq_refl eq_refl eq_refl eq_refl eq_refl
                eq_refl eq_refl) as H.
  destruct H as [(H1 & _ & _ & _ & _ & H6 & _) _].
  split; [exact H1 | exact H6].
Defined.


(** X8. A session started while state and ref hold a recording: the
    start opens none.  The first rotation saves the held recording and
    does not reopen, since the [recording] of the session's closure is
    still the held one at line 113; [isRecording] stays true with nothing
    being recorded, and the next rotation tick calls [stopAndUnloadAsync]
    on the recording that was stopped already. *)
Theorem adopted_recording_is_never_replaced (w : world) (h : recordingHandle) :
  isRecording (st (memory w)) = false ->
  isRecordingRef (rf (memory w)) = false ->
  recording (st (memory w)) = Some h ->
  recordingRef (rf (memory w)) = Some h ->
  has_uri (huri h) = true ->
  let w1 := run_events [PressRecord; Settle 0 (Grants granted);
                        Settle 0 Completes] w in
  let w2 := run_events [Tick 0; Settle 0 Completes; Settle 0 Completes;
                        Settle 0 Completes; Settle 0 Completes] w1 in
  let w3 := run_events [Tick 0] w2 in
  (isRecording (st (memory w1)) = true
   /\ recordingRef (rf (memory w1)) = Some h
   /\ calls w1 = calls w ++ [requestPermissionsAsync; setAudioModeAsync true])
  /\ (isRecording (st (memory w2)) = true
      /\ isRecordingRef (rf (memory w2)) = true
      /\ recording (st (memory w2)) = None
      /\ recordingRef (rf (memory w2)) = None
      /\ nextRecording w2 = nextRecording w
      /\ recordingSegments (st (memory w2))
         = recordingSegments (st (memory w))
           ++ [segment_of (segmentCountRef (rf (memory w))) (now (memory w))]
      /\ calls w2
         = calls w1
           ++ [stopAndUnloadAsync h; setAudioModeAsync false;
               moveAsync (uri_of h)
                 (documentDirectory
                  ++ fileName_of (segmentCountRef (rf (memory w)))
                       (now (memory w)));
               timeout 100]
      /\ pending w2 = pending w)
  /\ calls w3 = calls w2 ++ [stopAndUnloadAsync h].
Proof.
  intros H1 H2 H3 H4 H5 w1 w2 w3. unfold w3, w2, w1. open_world w.
  projections H1; projections H2; projections H3; projections H4. subst.
  destruct h as [i [[|c s]|]]; try discriminate.
  calm_runs. split; [|split]; splits; crunch; try reflexivity;
    repeat rewrite <- app_assoc; reflexivity.
Qed.

Lemma adopted_recording_is_never_replaced_witness :
  let w := run_events (start_session (Some "a.m4a")
                       ++ stop_during_reopen (Some "b.m4a")) mounted in
  let w1 := run_events [PressRecord; Settle 0 (Grants granted);
                        Settle 0 Completes] w in
  let w2 := run_events [Tick 0; Settle 0 Completes; Settle 0 Completes;
                        Settle 0 Completes; Settle 0 Completes] w1 in
  isRecording (st (memory w)) = false
  /\ isRecordingRef (rf (memory w)) = false
  /\ recording (st (memory w)) = Some (mkHandle 1 (Some "b.m4a"))
  /\ recordingRef (rf (memory w)) = Some (mkHandle 1 (Some "b.m4a"))
  /\ has_uri (Some "b.m4a") = true
  /\ isRecording (st (memory w2)) = true
  /\ recordingRef (rf (memory w2)) = None
  /\ nextRecording w2 = nextRecording w.
Proof.
  intros w w1 w2. do 5 (split; [reflexivity|]).
  pose proof (@adopted_recording_is_never_replaced w
                (mkHandle 1 (Some "b.m4a"))
                eq_refl eq_refl eq_refl eq_refl eq_refl) as H.
  destruct H as (_ & (H1 & _ & _ & H4 & H5 & _) & _).
  split; [exact H1 | split; [exact H4 | exact H5]].
Defined.

(** ** The effect clean-up *)

(** X12. The clean-up of lines 22-29 run during a session while a sound
    is held: both intervals are cleared, the sound is unloaded and the
    recording is stopped on the native side, but state and refs stay
    exactly as they were: [isRecording] is still true, the refs keep the
    dead interval ids and the stopped recording, and the segment in
    progress is neither moved nor listed. *)
Theorem cleanup_drops_the_open_segment (w : world) (R : state)
  (h : recordingHandle) (s : sound) (ti ts : nat) :
  intervalRef (rf (memory w)) = Some ti ->
  timerRef (rf (memory w)) = Some ts ->
  recordingRef (rf (memory w)) = Some h ->
  soundObject R = Some s ->
  let w' := run_events [Settle 0 Completes; Settle 0 Completes]
              (invoke (cleanup R) w) in
  memory w' = memory w
  /\ (forall e, In e (intervals w') -> fst (fst e) <> ti /\ fst (fst e) <> ts)
  /\ openRecordings w'
     = filter (fun x => negb (Nat.eqb x (hid h))) (openRecordings w)
  /\ loadedSounds w'
     = filter (fun x => negb (Nat.eqb x (sid s))) (loadedSounds w)
  /\ calls w' = calls w ++ [unloadAsync s; stopAndUnloadAsync h]
  /\ pending w' = pending w.
Proof.
  intros H1 H2 H3 H4 w'. unfold w'. open_world w.
  projections H1; projections H2; projections H3. subst.
  destruct R as [? ? ? ? ? ? so]. projections H4. subst so.
  calm_runs. splits; crunch; try reflexivity.
  - intros e. apply not_in_filtered.
  - rewrite <- app_assoc. reflexivity.
Qed.

Lemma cleanup_drops_the_open_segment_witness :
  let w := run_events (start_session (Some "a.m4a")) mounted in
  let R := mkState None false [] 0 0 None (Some (mkSound 0)) in
  let w' := run_events [Settle 0 Completes; Settle 0 Completes]
              (invoke (cleanup R) w) in
  intervalRef (rf (memory w)) = Some 2
  /\ timerRef (rf (memory w)) = Some 1
  /\ recordingRef (rf (memory w)) = Some (mkHandle 0 (Some "a.m4a"))
  /\ soundObject R = Some (mkSound 0)
  /\ memory w' = memory w.
Proof.
  intros w R w'. do 4 (split; [reflexivity|]).
  exact (proj1 (@cleanup_drops_the_open_segment w R
                  (mkHandle 0 (Some "a.m4a")) (mkSound 0) 2 1
                  eq_refl eq_refl eq_refl eq_refl)).
Defined.

(** X4. In a session whose closure holds no recording ([recording] was
    null in the render the session was started in), a rotation whose save
    goes as [ok1], [ok2], [ok3] say: the segment is appended and the
    counter incremented exactly when all three succeed and the recording
    has a file; no alert is shown in any case, and the session goes on:
    the next recording is opened and held in state and ref.  When the stop
    itself rejects, the old recording stays open on the native side next
    to the new one.  (With a recording in the closure nothing is reopened,
    see X8.) *)
Theorem rotation_goes_on_after_failed_save (w : world) (R0 : state)
  (h : recordingHandle) (ti : nat) (rest : list (nat * nat * Async unit))
  (ok1 ok2 ok3 : bool) (u : option string) :
  recording R0 = None ->
  isRecordingRef (rf (memory w)) = true ->
  recordingRef (rf (memory w)) = Some h ->
  intervals w = (ti, 5000, fork (handleSegmentSplit R0)) :: rest ->
  let has := has_uri (huri h) in
  let saved := ok1 && ok2 && has && ok3 in
  let count := segmentCountRef (rf (memory w)) in
  let w' := run_events (rotation_with_save ok1 ok2 has ok3 u) w in
  recordingSegments (st (memory w'))
  = recordingSegments (st (memory w))
    ++ (if saved then [segment_of count (now (memory w))] else [])
  /\ segmentCountRef (rf (memory w')) = count + (if saved then 1 else 0)
  /\ alerts (memory w') = alerts (memory w)
  /\ recording (st (memory w')) = Some (mkHandle (nextRecording w) u)
  /\ recordingRef (rf (memory w')) = Some (mkHandle (nextRecording w) u)
  /\ isRecordingRef (rf (memory w')) = true
  /\ segmentProgress (st (memory w')) = 0
  /\ openRecordings w'
     = (if ok1
        then filter (fun x => negb (Nat.eqb x (hid h))) (openRecordings w)
        else openRecordings w) ++ [nextRecording w]
  /\ intervals w' = intervals w
  /\ pending w' = pending w.
Proof.
  intros HR Hon Href Hiv has saved count w'.
  unfold w', count, saved, has. open_world w.
  projections Hon; projections Href; projections Hiv. subst.
  destruct R0 as [r0 ? ? ? ? ? ?]. projections HR. subst r0.
  unfold rotation_with_save.
  destruct h as [i [[|c s]|]], ok1, ok2, ok3;
    cbn [has_uri huri save_calls andb firstn List.app reply_of];
    calm_runs; crunch; splits; try reflexivity;
    first [rewrite app_nil_r; reflexivity | lia].
Qed.

Lemma rotation_goes_on_after_failed_save_witness :
  let w := run_events (start_session (Some "a.m4a")) mounted in
  let w' := run_events (rotation_with_save true true
                          (has_uri (huri (mkHandle 0 (Some "a.m4a")))) false
                          (Some "b.m4a")) w in
  recording initial_state = None
  /\ isRecordingRef (rf (memory w)) = true
  /\ recordingRef (rf (memory w)) = Some (mkHandle 0 (Some "a.m4a"))
  /\ intervals w = [(2, 5000, fork (handleSegmentSplit initial_state));
                    (1, 1000, everySecond)]
  /\ recordingSegments (st (memory w')) = []
  /\ recordingRef (rf (memory w')) = Some (mkHandle 1 (Some "b.m4a")).
Proof.
  intros w w'. do 4 (split; [reflexivity|]).
  pose proof (@rotation_goes_on_after_failed_save w initial_state
                (mkHandle 0 (Some "a.m4a")) 2 [(1, 1000, everySecond)]
                true true false (Some "b.m4a")
                eq_refl eq_refl eq_refl eq_refl) as H.
  destruct H as (H1 & _ & _ & _ & H5 & _).
  split; [exact H1 | exact H5].
Defined.

(** ** A whole session *)

(** Removing an id that was handed out later than everything in the list
    removes nothing. *)

Lemma filter_fresh (n : nat) (l : list nat) :
  Forall (fun x => x < n) l ->
  filter (fun x => negb (Nat.eqb x n)) l = l.
Proof.
  induction 1 as [|x l Hx Hl IH]; simpl; [reflexivity|].
  destruct (Nat.eqb_spec x n) as [->|_]; [lia|]. simpl. rewrite IH. reflexivity.
Qed.

Lemma filter_fresh_last (n m : nat) (l : list nat) :
  Forall (fun x => x < n) l -> n <= m ->
  filter (fun x => negb (Nat.eqb x m)) (l ++ [m]) = l.
Proof.
  intros Hl Hm. rewrite filter_app, filter_fresh.
  - simpl. rewrite Nat.eqb_refl. simpl. apply app_nil_r.
  - eapply Forall_impl; [|exact Hl]. simpl. intros; lia.
Qed.

Lemma filter_fresh_intervals (n m : nat) (l : list (nat * nat * Async unit)) :
  Forall (fun e => fst (fst e) < n) l -> n <= m ->
  filter (fun e => negb (Nat.eqb (fst (fst e)) m)) l = l.
Proof.
  intros Hl Hm. induction Hl as [|x l Hx Hl IH]; simpl; [reflexivity|].
  destruct (Nat.eqb_spec (fst (fst x)) m) as [E|_]; [lia|].
  simpl. rewrite IH. reflexivity.
Qed.

Lemma session_intervals_cleared (nt : nat) (cb1 cb2 : Async unit)
  (l : list (nat * nat * Async unit)) :
  Forall (fun e => fst (fst e) < nt) l ->
  filter (fun e => negb (Nat.eqb (fst (fst e)) nt))
    (filter (fun e => negb (Nat.eqb (fst (fst e)) (S nt)))
       ((S nt, 5000, cb1) :: (nt, 1000, cb2) :: l))
  = l.
Proof.
  intros Hl. cbn [filter fst].
  rewrite Nat.eqb_refl. cbn [negb].
  destruct (Nat.eqb_spec nt (S nt)) as [E|_]; [lia|]. cbn [negb filter fst].
  rewrite Nat.eqb_refl. cbn [negb].
  rewrite (filter_fresh_intervals Hl (Nat.le_succ_diag_r nt)).
  apply (filter_fresh_intervals Hl (le_n nt)).
Qed.

(** The invariant [in_session] is set up by the start, kept by every
    second and every rotation, and taken down by stop. *)

Lemma in_session_starts (w : world) (clock : nat -> nat)
  (file : nat -> option string) :
  idle (memory w) -> has_uri (file 0) = true ->
  in_session w clock file 0 0 (run_events (start_session (file 0)) w).
Proof.
  intros (H1 & H2 & H3 & H4 & H5) Hu. open_world w.
  projections H1; projections H2; projections H3; projections H4;
    projections H5.
  injection H5 as -> -> -> -> ->. subst.
  destruct (file 0) as [[|c' s']|] eqn:Hf; try discriminate.
  calm_runs. constructor; crunch; rewrite ?Hf, ?Nat.add_0_r, ?app_nil_r;
    try reflexivity.
  repeat split.
Qed.

(** Name every cell of the world the session started in. *)
Ltac open_start w0 :=
  destruct w0 as [[[r0 ir0 segs0 tm0 pr0 pl0 so0] rf0 al0 now0]
                  c0 open0 ld0 nr0 ns0 nt0 iv0 ls0 pd0].

(** Reduce the projections of a hypothesis and nothing else (the
    arithmetic stays as written). *)
Ltac fields H :=
  cbv beta iota delta
    [memory calls openRecordings loadedSounds nextRecording nextSound
     nextTimer intervals listeners pending st rf alerts now recording
     isRecording recordingSegments recordingTime segmentProgress
     playingSegmentId soundObject intervalRef timerRef segmentCountRef
     isRecordingRef recordingRef huri hid sid] in H.

Ltac open_session H :=
  destruct H as [Hst Hrf Hal Hop Hnr Hiv Hnt (Hld & Hns & Hls) Hpd].

Ltac fields_everywhere :=
  repeat match goal with H : _ |- _ => progress fields H end.

(** Replace every cell of a world in session by what [in_session] says
    of it. *)
Ltac enter_session H w0 w :=
  open_session H; open_start w0; open_world w; fields_everywhere;
  match goal with
  | E : _ = mkState _ _ _ _ ?p _ _ |- _ =>
      let q := fresh "p" in
      let Eq := fresh "Ep" in
      remember p as q eqn:Eq in E;
      injection E as -> -> -> -> -> -> ->
  end;
  match goal with
  | E : _ = mkRefs _ _ _ _ _ |- _ => injection E as -> -> -> -> ->
  end;
  subst.

Lemma in_session_second (w0 w : world) (clock : nat -> nat)
  (file : nat -> option string) (k e : nat) :
  in_session w0 clock file k e w ->
  in_session w0 clock file k (S e) (step w (Tick 1)).
Proof.
  intros H. enter_session H w0 w.
  calm_runs. constructor; crunch; try reflexivity; [|repeat split].
  f_equal; [lia|].
  rewrite Nat.Div0.add_mod_idemp_l. f_equal. lia.
Qed.

Lemma in_session_seconds (w0 : world) (clock : nat -> nat)
  (file : nat -> option string) (k n : nat) :
  forall e w, in_session w0 clock file k e w ->
  in_session w0 clock file k (e + n) (run_events (repeat (Tick 1) n) w).
Proof.
  induction n as [|n IH]; intros e w H.
  - rewrite Nat.add_0_r. exact H.
  - replace (e + S n) with (S e + n) by lia.
    apply (IH (S e)), in_session_second, H.
Qed.

Lemma in_session_rotates (w0 w : world) (clock : nat -> nat)
  (file : nat -> option string) (k : nat) :
  recording (st (memory w0)) = None ->
  has_uri (file k) = true ->
  Forall (fun x => x < nextRecording w0) (openRecordings w0) ->
  in_session w0 clock file k 0 w ->
  in_session w0 clock file (S k) 0
    (run_events (five_seconds (clock k) (file (S k))) w).
Proof.
  intros HR Hu Hfresh H. enter_session H w0 w.
  destruct (file k) as [[|c s]|] eqn:Hf; try discriminate.
  calm_runs. constructor; crunch; try reflexivity.
  - f_equal; [f_equal; f_equal; lia | | lia].
    rewrite seq_S, map_app, app_assoc. reflexivity.
  - f_equal; [lia | f_equal; f_equal; lia].
  - f_equal; [|f_equal; lia].
    apply (@filter_fresh_last nr0 (nr0 + k) open0 Hfresh). lia.
  - f_equal. lia.
  - repeat split.
Qed.

Lemma in_session_rotations (w0 w : world) (clock : nat -> nat)
  (file : nat -> option string) :
  recording (st (memory w0)) = None ->
  (forall k, has_uri (file k) = true) ->
  Forall (fun x => x < nextRecording w0) (openRecordings w0) ->
  in_session w0 clock file 0 0 w ->
  forall n, in_session w0 clock file n 0 (run_events (rotations n clock file) w).
Proof.
  intros HR Hu Hfresh H. induction n as [|n IH].
  - exact H.
  - rewrite rotations_S, run_events_app. apply in_session_rotates; auto.
Qed.

Lemma in_session_stops (w0 w : world) (clock : nat -> nat)
  (file : nat -> option string) (k e t : nat) :
  has_uri (file k) = true ->
  Forall (fun x => x < nextRecording w0) (openRecordings w0) ->
  Forall (fun e => fst (fst e) < nextTimer w0) (intervals w0) ->
  in_session w0 clock file k e w ->
  let w' := run_events (Clock t :: stop_session) w in
  idle (memory w')
  /\ recordingSegments (st (memory w'))
     = recordingSegments (st (memory w0))
       ++ map (fun j => segment_of j (clock j)) (seq 0 k) ++ [segment_of k t]
  /\ alerts (memory w')
     = alerts (memory w0)
       ++ [RecordingDone (List.length (recordingSegments (st (memory w0))) + k + 1)]
  /\ playingSegmentId (st (memory w')) = playingSegmentId (st (memory w0))
  /\ soundObject (st (memory w')) = soundObject (st (memory w0))
  /\ openRecordings w' = openRecordings w0
  /\ intervals w' = intervals w0
  /\ loadedSounds w' = loadedSounds w0
  /\ listeners w' = listeners w0
  /\ pending w' = pending w0.
Proof.
  intros Hu Hfresh Hfresh' H w'. unfold w'. clear w'. enter_session H w0 w.
  destruct (file k) as [[|c s]|] eqn:Hf; try discriminate.
  calm_runs. splits; crunch; try reflexivity.
  - repeat split.
  - rewrite <- app_assoc. reflexivity.
  - do 3 f_equal. rewrite !length_app, length_map, length_seq.
    cbn [List.length]. lia.
  - apply (@filter_fresh_last nr0 (nr0 + k) open0 Hfresh). lia.
  - apply (session_intervals_cleared _ _ Hfresh').
Qed.

(** X11. A whole session from an idle component: start, [D] seconds of
    recording with every rotation, stop at time [t], every call
    succeeding on a recording with a file.  Afterwards the component is
    idle again; the list has gained [D / 5 + 1] segments, built under the
    counts 0 .. [D / 5], the last one by stop; the summary reports the
    length of the whole list; every recording that was opened is closed
    and both intervals are gone (given that the ids handed out are fresh);
    playback and the suspended functions are as before. *)
Theorem session_round_trip (w : world) (D : nat) (clock : nat -> nat)
  (file : nat -> option string) (t : nat) :
  idle (memory w) ->
  (forall k, has_uri (file k) = true) ->
  Forall (fun x => x < nextRecording w) (openRecordings w) ->
  Forall (fun e => fst (fst e) < nextTimer w) (intervals w) ->
  let w' := run_events (whole_session D clock file t) w in
  idle (memory w')
  /\ recordingSegments (st (memory w'))
     = recordingSegments (st (memory w))
       ++ map (fun j => segment_of j (clock j)) (seq 0 (D / 5))
       ++ [segment_of (D / 5) t]
  /\ alerts (memory w')
     = alerts (memory w)
       ++ [RecordingDone
             (List.length (recordingSegments (st (memory w))) + D / 5 + 1)]
  /\ playingSegmentId (st (memory w')) = playingSegmentId (st (memory w))
  /\ soundObject (st (memory w')) = soundObject (st (memory w))
  /\ openRecordings w' = openRecordings w
  /\ intervals w' = intervals w
  /\ loadedSounds w' = loadedSounds w
  /\ listeners w' = listeners w
  /\ pending w' = pending w.
Proof.
  intros Hidle Hu Hf1 Hf2 w'. unfold w', whole_session, continuous_recording.
  rewrite !run_events_app.
  apply (@in_session_stops w _ clock file (D / 5) (0 + D mod 5) t);
    auto.
  apply in_session_seconds, in_session_rotations; auto.
  - exact (proj1 Hidle).
  - apply in_session_starts; auto.
Qed.

Lemma session_round_trip_witness :
  let w' := run_events (whole_session 12 (fun k => 100 + k)
                          (fun _ => Some "a.m4a") 200) mounted in
  idle (memory mounted)
  /\ (forall k : nat, has_uri (Some "a.m4a") = true)
  /\ Forall (fun x => x < nextRecording mounted) (openRecordings mounted)
  /\ Forall (fun e => fst (fst e) < nextTimer mounted) (intervals mounted)
  /\ map id (recordingSegments (st (memory w')))
     = ["segment_0_100"; "segment_1_101"; "segment_2_200"]
  /\ idle (memory w').
Proof.
  intros w'.
  assert (H1 : idle (memory mounted)) by (repeat split).
  assert (H2 : forall k : nat, has_uri (Some "a.m4a") = true) by reflexivity.
  pose proof (@session_round_trip mounted 12 (fun k => 100 + k)
                (fun _ => Some "a.m4a") 200 H1 H2 (Forall_nil _) (Forall_nil _))
    as (H3 & H4 & _).
  split; [exact H1|]. split; [exact H2|]. do 2 (split; [constructor|]).
  split; [|exact H3].
  unfold w'. rewrite H4. reflexivity.
Defined.

(** ** Playback to the end *)

(** A sound that is loaded and has a status callback reports its end to
    that callback. *)
Lemma finish_step (w : world) (s : nat) (cb : Async unit)
  (rest : list (nat * Async unit)) :
  In s (loadedSounds w) -> listeners w = (s, cb) :: rest ->
  handle w (DidJustFinish s) = invoke cb w.
Proof.
  intros Hin Hl. cbn [handle].
  assert (E : existsb (Nat.eqb s) (loadedSounds w) = true).
  { apply existsb_exists. exists s. split; [assumption | apply Nat.eqb_refl]. }
  rewrite E, Hl. cbn [find fst]. rewrite Nat.eqb_refl. reflexivity.
Qed.

(** Evaluate the world in which a sound reports its end. *)
Ltac before_the_end :=
  match goal with
  | |- context [step ?W (DidJustFinish _)] =>
      let W' := eval lazy -[dec String.append Nat.add Nat.mul Nat.modulo
                            Nat.div id_of fileName_of documentDirectory
                            List.app List.filter List.length List.map
                            List.seq segment_of List.In] in W in
      change W with W'
  end.

(** The end of a sound changes [soundObject]: the callback, then the
    clean-up. *)
Ltac the_end :=
  match goal with
  | |- context [step ?W (DidJustFinish ?x)] =>
      let X := fresh "X" in
      let E := fresh "E" in
      let F := fresh "F" in
      set (X := step W (DidJustFinish x));
      assert (E : X = invoke (cleanup (st (memory W)))
                        (invoke (onDidJustFinish (mkSound x)) W));
      [ assert (F : handle W (DidJustFinish x)
                    = invoke (onDidJustFinish (mkSound x)) W)
          by (eapply finish_step;
              [ cbn [loadedSounds]; apply in_or_app; right; left; reflexivity
              | reflexivity ]);
        unfold X; rewrite step_changed by (rewrite F; lazy; reflexivity);
        rewrite F; reflexivity
      | clearbody X; subst X ]
  end.

(** X13. A segment played from silence to its end.  The press loads one
    sound and marks the row; [soundObject] has changed, so the clean-up of
    the render before runs.  When the sound reports [didJustFinish], the
    callback of lines 240-246 clears the mark and the sound object and
    unloads the sound; [soundObject] has changed again, and the clean-up
    that runs now unloads the same sound once more.  When the callback's
    unload has completed, memory and loaded sounds are as before the
    press; the calls of the two clean-ups, which nobody awaits, are what is
    left pending. *)
Theorem playback_to_the_end (w : world) (n : nat) (seg : segment) :
  nth_error (recordingSegments (st (memory w))) n = Some seg ->
  soundObject (st (memory w)) = None ->
  playingSegmentId (st (memory w)) = None ->
  Forall (fun x => x < nextSound w) (loadedSounds w) ->
  let s := mkSound (nextSound w) in
  let w1 := run_events [PressSegment n; Settle 0 Completes] w in
  let w2 := run_events (sound_ends w) w1 in
  (playingSegmentId (st (memory w1)) = Some (id seg)
   /\ soundObject (st (memory w1)) = Some s
   /\ loadedSounds w1 = loadedSounds w ++ [nextSound w]
   /\ calls w1
      = calls w ++ [createSound (uri seg)] ++ cleanup_calls None (memory w))
  /\ (memory w2 = memory w
      /\ loadedSounds w2 = loadedSounds w
      /\ calls w2
         = calls w ++ [createSound (uri seg)] ++ cleanup_calls None (memory w)
           ++ [unloadAsync s] ++ cleanup_calls (Some s) (memory w)
      /\ map fst (pending w2)
         = List.rev (cleanup_calls (Some s) (memory w))
           ++ List.rev (cleanup_calls None (memory w))
           ++ map fst (pending w)).
Proof.
  intros Hn Hs Hp Hf s w1 w2. unfold w2, w1, s, sound_ends, run_events.
  cbn [fold_left].
  open_world w. projections Hs; projections Hp; projections Hf. subst.
  rewrite (@step_calm _ (PressSegment n))
    by (rewrite (@press_segment_step _ n seg Hn); lazy; reflexivity).
  rewrite (@press_segment_step _ n seg Hn).
  rewrite (@step_changed _ (Settle 0 Completes)) by (lazy; reflexivity).
  destruct w_ref, w_ival, w_timer;
    cbn [cleanup_calls soundObject st rf recordingRef memory nextSound
         List.app List.length];
    (split; [crunch; splits; try reflexivity; lists_done|]);
    before_the_end; the_end; calm_runs; crunch; splits; try reflexivity;
    first [ apply (@filter_fresh_last w_ns w_ns w_loaded Hf (le_n _))
          | lists_done ].
Qed.

Lemma playback_to_the_end_witness :
  let w := run_events (short_session 7 "a.m4a") mounted in
  let w1 := run_events [PressSegment 0; Settle 0 Completes] w in
  let w2 := run_events (sound_ends w) w1 in
  nth_error (recordingSegments (st (memory w))) 0 = Some (segment_of 0 7)
  /\ soundObject (st (memory w)) = None
  /\ playingSegmentId (st (memory w)) = None
  /\ Forall (fun x => x < nextSound w) (loadedSounds w)
  /\ memory w2 = memory w
  /\ calls w2 = calls w ++ [createSound (uri (segment_of 0 7));
                            unloadAsync (mkSound 0); unloadAsync (mkSound 0)].
Proof.
  intros w w1 w2. do 3 (split; [reflexivity|]). split; [constructor|].
  pose proof (@playback_to_the_end w 0 (segment_of 0 7)
                eq_refl eq_refl eq_refl (Forall_nil _)) as [_ (H1 & _ & H3 & _)].
  split; [exact H1 | exact H3].
Defined.

(** ** Playing while recording *)

(** X17. A row pressed during a session, nothing playing before.  Once
    the sound has loaded, [soundObject] has changed and the clean-up of
    lines 22-29 runs: both intervals of the session are cleared and
    [stopAndUnloadAsync] is called on the recording, which is closed when
    that call completes.  Nothing tells the component: [isRecording] is
    still true, state and refs keep the recording and the ids of the dead
    intervals, no alert is shown, and the segment in progress is neither
    moved nor listed. *)
Theorem playing_ends_the_session_silently (w : world) (n : nat)
  (seg : segment) (h : recordingHandle) (ti ts : nat) :
  nth_error (recordingSegments (st (memory w))) n = Some seg ->
  soundObject (st (memory w)) = None ->
  isRecording (st (memory w)) = true ->
  intervalRef (rf (memory w)) = Some ti ->
  timerRef (rf (memory w)) = Some ts ->
  recordingRef (rf (memory w)) = Some h ->
  let w1 := run_events [PressSegment n; Settle 0 Completes] w in
  let w2 := step w1 (Settle 0 Completes) in
  (soundObject (st (memory w1)) = Some (mkSound (nextSound w))
   /\ playingSegmentId (st (memory w1)) = Some (id seg)
   /\ (forall e, In e (intervals w1) -> fst (fst e) <> ti /\ fst (fst e) <> ts)
   /\ calls w1 = calls w ++ [createSound (uri seg); stopAndUnloadAsync h])
  /\ (openRecordings w2
      = filter (fun x => negb (Nat.eqb x (hid h))) (openRecordings w)
      /\ intervals w2 = intervals w1
      /\ isRecording (st (memory w2)) = true
      /\ recording (st (memory w2)) = recording (st (memory w))
      /\ recordingSegments (st (memory w2)) = recordingSegments (st (memory w))
      /\ rf (memory w2) = rf (memory w)
      /\ alerts (memory w2) = alerts (memory w)
      /\ calls w2 = calls w1
      /\ pending w2 = pending w).
Proof.
  intros Hn Hs H1 H2 H3 H4 w1 w2. unfold w2, w1, run_events. cbn [fold_left].
  open_world w.
  projections Hs; projections H1; projections H2; projections H3;
    projections H4.
  subst.
  rewrite (@step_calm _ (PressSegment n))
    by (rewrite (@press_segment_step _ n seg Hn); lazy; reflexivity).
  rewrite (@press_segment_step _ n seg Hn).
  rewrite (@step_changed _ (Settle 0 Completes)) by (lazy; reflexivity).
  calm_runs.
  split; splits; crunch; try reflexivity; try lists_done.
  intros e. apply not_in_filtered.
Qed.

Lemma playing_ends_the_session_silently_witness :
  let w := run_events (short_session 7 "a.m4a" ++ start_session (Some "b.m4a"))
             mounted in
  let w1 := run_events [PressSegment 0; Settle 0 Completes] w in
  let w2 := step w1 (Settle 0 Completes) in
  nth_error (recordingSegments (st (memory w))) 0 = Some (segment_of 0 7)
  /\ soundObject (st (memory w)) = None
  /\ isRecording (st (memory w)) = true
  /\ intervalRef (rf (memory w)) = Some 4
  /\ timerRef (rf (memory w)) = Some 3
  /\ recordingRef (rf (memory w)) = Some (mkHandle 1 (Some "b.m4a"))
  /\ openRecordings w = [1]
  /\ openRecordings w2 = []
  /\ isRecording (st (memory w2)) = true.
Proof.
  intros w w1 w2. do 7 (split; [reflexivity|]).
  pose proof (@playing_ends_the_session_silently w 0 (segment_of 0 7)
                (mkHandle 1 (Some "b.m4a")) 4 3
                eq_refl eq_refl eq_refl eq_refl eq_refl eq_refl)
    as [_ (H1 & _ & H3 & _)].
  split; [exact H1 | exact H3].
Defined.

(** ** What is displayed and what is named *)

Local Open Scope string_scope.

Lemma leading_digits_app (d : uint) (z : nat) (c : ascii) (r : string) :
  is_digit c = false ->
  leading_digits (zeros z ++ NilEmpty.string_of_uint d ++ String c r)
  = zeros z ++ NilEmpty.string_of_uint d.
Proof.
  intros Hc. induction z as [|z IH]; simpl.
  - induction d; simpl; try rewrite IHd; try reflexivity. rewrite Hc. reflexivity.
  - rewrite IH. reflexivity.
Qed.

Lemma leading_digits_all (d : uint) :
  leading_digits (NilEmpty.string_of_uint d) = NilEmpty.string_of_uint d.
Proof. induction d; simpl; try rewrite IHd; reflexivity. Qed.

Lemma after_digits_app (d : uint) (z : nat) (c : ascii) (r : string) :
  is_digit c = false ->
  after_digits (zeros z ++ NilEmpty.string_of_uint d ++ String c r) = String c r.
Proof.
  intros Hc. induction z as [|z IH]; simpl.
  - induction d; simpl; try rewrite IHd; try reflexivity. rewrite Hc. reflexivity.
  - exact IH.
Qed.

Lemma read_number_padded (z n : nat) :
  read_number (zeros z ++ dec n) = Some n.
Proof.
  unfold read_number. induction z as [|z IH]; simpl.
  - unfold dec. rewrite NilEmpty.usu. simpl. f_equal. apply Unsigned.of_to.
  - destruct (NilEmpty.uint_of_string (zeros z ++ dec n)) as [d|]; [|discriminate].
    simpl in *. exact IH.
Qed.

Lemma read_number_dec (n : nat) : read_number (dec n) = Some n.
Proof. exact (read_number_padded 0 n). Qed.

Lemma string_app_assoc (a b c : string) : (a ++ b) ++ c = a ++ (b ++ c).
Proof. induction a; simpl; congruence. Qed.

Lemma read_time_formatTime (t : nat) : read_time (formatTime t) = Some t.
Proof.
  unfold read_time, formatTime, padStart.
  set (z1 := 2 - String.length (dec (t / 60))).
  set (z2 := 2 - String.length (dec (t mod 60))).
  assert (E : (zeros z1 ++ dec (t / 60)) ++ ":" ++ zeros z2 ++ dec (t mod 60)
              = zeros z1 ++ NilEmpty.string_of_uint (Nat.to_uint (t / 60))
                ++ String ":" (zeros z2 ++ dec (t mod 60))).
  { unfold dec. rewrite string_app_assoc. reflexivity. }
  rewrite E.
  rewrite leading_digits_app, after_digits_app by reflexivity.
  fold (dec (t / 60)). rewrite !read_number_padded.
  f_equal. pose proof (Nat.div_mod_eq t 60). lia.
Qed.

(** X14. [formatTime] shows different numbers of seconds differently:
    the display can be read back. *)
Theorem formatTime_distinct (t t' : nat) :
  t <> t' -> formatTime t <> formatTime t'.
Proof.
  intros Ht H. apply Ht. apply (f_equal read_time) in H.
  rewrite !read_time_formatTime in H. congruence.
Qed.

Lemma formatTime_distinct_witness :
  59 <> 60 /\ formatTime 59 = "00:59" /\ formatTime 60 = "01:00"
  /\ formatTime 59 <> formatTime 60.
Proof.
  assert (H : 59 <> 60) by discriminate.
  split; [exact H|]. do 2 (split; [reflexivity|]).
  exact (@formatTime_distinct 59 60 H).
Defined.

Lemma two_digits (n : nat) :
  n < 100 ->
  padStart 2 (dec n) = String (digit (n / 10)) (String (digit (n mod 10)) "").
Proof.
  intros H.
  do 100 (destruct n as [|n]; [vm_compute; reflexivity|]). lia.
Qed.

(** X15. Below a hundred minutes [formatTime] gives five characters,
    mm:ss, minutes and seconds padded to two digits each. *)
Theorem formatTime_mm_ss (t : nat) :
  t < 100 * 60 ->
  let m := t / 60 in
  let s := t mod 60 in
  formatTime t
  = String (digit (m / 10)) (String (digit (m mod 10)) (String ":"
      (String (digit (s / 10)) (String (digit (s mod 10)) "")))).
Proof.
  intros H m s. unfold formatTime.
  assert (Hm : t / 60 < 100) by (apply Nat.Div0.div_lt_upper_bound; lia).
  assert (Hs : t mod 60 < 100) by (pose proof (Nat.mod_upper_bound t 60); lia).
  rewrite (two_digits Hm), (two_digits Hs). reflexivity.
Qed.

Lemma formatTime_mm_ss_witness :
  754 < 100 * 60 /\ formatTime 754 = "12:34".
Proof.
  assert (H : 754 < 100 * 60) by (apply Nat.ltb_lt; reflexivity).
  split; [exact H|].
  rewrite (@formatTime_mm_ss 754 H). reflexivity.
Defined.

Lemma read_pair_dec (n t : nat) (r : string) :
  match r with String c _ => is_digit c = false | EmptyString => True end ->
  read_pair (dec n ++ "_" ++ dec t ++ r) = Some (n, t).
Proof.
  intros Hr. unfold read_pair.
  change (dec n ++ "_" ++ dec t ++ r)
    with (zeros 0 ++ NilEmpty.string_of_uint (Nat.to_uint n)
          ++ String "_" (dec t ++ r)).
  rewrite leading_digits_app, after_digits_app by reflexivity.
  cbn [zeros String.append]. fold (dec n). rewrite read_number_dec.
  assert (E : leading_digits (dec t ++ r) = dec t).
  { destruct r as [|c r].
    - replace (dec t ++ "") with (dec t) by (induction (dec t); simpl; congruence).
      apply leading_digits_all.
    - exact (@leading_digits_app (Nat.to_uint t) 0 c r Hr). }
  rewrite E, read_number_dec. reflexivity.
Qed.

(** X16. The file name of line 166 and the id of line 173 can be read
    back: each determines the count and the timestamp it was built from,
    so two saves get the same name only with the same count in the same
    millisecond. *)
Theorem names_carry_count_and_time (n t : nat) :
  name_fields (fileName_of n t) = Some (n, t)
  /\ id_fields (id_of n t) = Some (n, t)
  /\ (forall n' t', fileName_of n t = fileName_of n' t' -> n = n' /\ t = t')
  /\ (forall n' t', id_of n t = id_of n' t' -> n = n' /\ t = t').
Proof.
  assert (F : forall n t, name_fields (fileName_of n t) = Some (n, t)).
  { intros a b. unfold fileName_of. cbn [String.append name_fields].
    apply (@read_pair_dec a b ".m4a"). reflexivity. }
  assert (G : forall n t, id_fields (id_of n t) = Some (n, t)).
  { intros a b. unfold id_of. cbn [String.append id_fields].
    replace (dec a ++ String "_" (dec b)) with (dec a ++ "_" ++ dec b ++ "").
    - apply read_pair_dec. exact Logic.I.
    - f_equal. cbn [String.append]. f_equal.
      induction (dec b); simpl; congruence. }
  splits; auto.
  - intros n' t' H. apply (f_equal name_fields) in H.
    rewrite !F in H. split; congruence.
  - intros n' t' H. apply (f_equal id_fields) in H.
    rewrite !G in H. split; congruence.
Qed.

Local Open Scope list_scope.
